(** * blob.py: a Gaussian ("metaball") field over random clustered units

    A shallow embedding of [src/blob.py], stage by stage and in the order of
    the script: the cluster generator (lines 14-21), the grid builder
    (lines 24-30) and the field evaluator with its normalisation
    (lines 33-41).  The renderer (lines 44-51) only draws; what it is handed
    is the record [render_input].

    NumPy arrays are lists: a 1-D array is a [list T], an [(n,2)] array of
    points a [list (T * T)], a 2-D array a [list (list T)] of rows.  The
    scalar type [T] is an interface, [Scalar]: the script computes in
    binary64 ([float_scalar], over Rocq's primitive floats), and the reals
    ([real_scalar]) are its exact-arithmetic reading.  A Python exception is
    the [Raise] branch of [result]; the process-global random state of
    [np.random] is threaded explicitly through the [Rand] monad.  The stages
    are given first by their values ([pipeline]); [script] adds the one
    check Python itself makes on the way, on [sigma ** 2]. *)

From Stdlib Require Import List ZArith Bool Reals Lra Lia Psatz Floats Permutation.
Import ListNotations.

(** ** Exceptions *)

Inductive exn : Type :=
| ValueError
| OverflowError.

Inductive result (A : Type) : Type :=
| Ok (a : A)
| Raise (e : exn).

Arguments Ok {A} a.
Arguments Raise {A} e.

Definition rbind {A B} (r : result A) (k : A -> result B) : result B :=
  match r with
  | Ok a => k a
  | Raise e => Raise e
  end.

Definition result_map {A B} (f : A -> B) (r : result A) : result B :=
  rbind r (fun a => Ok (f a)).

(** ** The random source: [np.random]'s global state, made explicit *)

Definition Rand (G A : Type) : Type := G -> A * G.

Definition ret {G A} (a : A) : Rand G A := fun g => (a, g).

Definition bind {G A B} (m : Rand G A) (k : A -> Rand G B) : Rand G B :=
  fun g => let (a, g') := m g in k a g'.

Declare Scope rand_scope.
Delimit Scope rand_scope with rand.
Notation "x <- m ;; k" := (bind m (fun x => k))
  (at level 61, m at next level, right associativity) : rand_scope.

(** ** Scalars *)

Class Scalar (T : Type) : Type := {
  s_of_Z : Z -> T;             (* an integer literal or a loop index as a scalar *)
  s_add : T -> T -> T;
  s_sub : T -> T -> T;
  s_mul : T -> T -> T;
  s_div : T -> T -> T;
  s_opp : T -> T;
  s_exp : T -> T;              (* np.exp *)
  s_eqb : T -> T -> bool;      (* == *)
  s_maximum : T -> T -> T;     (* np.maximum, the reduction behind .max() *)
  s_minimum : T -> T -> T      (* np.minimum, the reduction behind .min() *)
}.

(** One draw from each of the two distributions the script uses, and the
    state that [np.random.seed s] installs. *)
Class RandomSource (G T : Type) : Type := {
  rs_seed : Z -> G;
  rs_uniform : T -> T -> Rand G T;   (* low, high *)
  rs_normal : T -> T -> Rand G T     (* loc, scale *)
}.

Section Pipeline.

Context {T : Type} {SC : Scalar T}.

Local Open Scope rand_scope.

(** *** Array helpers (broadcasting written out) *)

Definition point : Type := (T * T)%type.
Definition array1 : Type := list T.
Definition array2 : Type := list (list T).

Definition map2 {A B C} (f : A -> B -> C) (xs : list A) (ys : list B) : list C :=
  map (fun p => f (fst p) (snd p)) (combine xs ys).

(** [A op s] for a 2-D array and a scalar. *)
Definition arr_scalar (f : T -> T -> T) (A : array2) (s : T) : array2 :=
  map (map (fun a => f a s)) A.

(** [A op B] for two 2-D arrays of one shape. *)
Definition arr_arr (f : T -> T -> T) (A B : array2) : array2 :=
  map2 (map2 f) A B.

Definition arr_map (f : T -> T) (A : array2) : array2 := map (map f) A.

(** [A[i, j]]; the default stands for an index out of range. *)
Definition at2 (A : array2) (i j : nat) : T :=
  nth j (nth i A []) (s_of_Z 0).

Definition shape (A : array2) : list nat := map (@length T) A.

(** [(i, j)] is an index of [A]. *)
Definition in_range (A : array2) (i j : nat) : Prop :=
  (i < length A)%nat /\ (j < length (nth i A []))%nat.

(** ** Cluster generator (lines 14-21) *)

Section Generator.

Context {G : Type} {RS : RandomSource G T}.

(** [size=(n, 2)]: [n] rows of two draws each, filled in row-major order. *)
Fixpoint draw_rows (n : nat) (draw : Rand G T) : Rand G (list point) :=
  match n with
  | O => ret []
  | S n' =>
      a <- draw ;;
      b <- draw ;;
      rest <- draw_rows n' draw ;;
      ret ((a, b) :: rest)
  end.

(** [center + noise], the centre broadcast over the rows of [noise]. *)
Definition add_center (center : point) (noise : list point) : list point :=
  map (fun p => (s_add (fst center) (fst p), s_add (snd center) (snd p))) noise.

(** A cluster as line 18 makes it: [units_per_cluster] points, each the
    centre plus a draw. *)
Definition cluster_of (units_per_cluster : nat) (center : point)
  (cluster : list point) : Prop :=
  exists noise, length noise = units_per_cluster /\
                cluster = add_center center noise.

(** One turn of the loop of lines 17-19. *)
Definition make_cluster (units_per_cluster : nat) (center : point)
  : Rand G (list point) :=
  noise <- draw_rows units_per_cluster (rs_normal (s_of_Z 0) (s_of_Z 5)) ;;
  ret (add_center center noise).

(** The loop of lines 17-19: [units] collects one cluster per centre. *)
Fixpoint make_clusters (units_per_cluster : nat) (centers : list point)
  : Rand G (list (list point)) :=
  match centers with
  | [] => ret []
  | center :: centers' =>
      cluster <- make_cluster units_per_cluster center ;;
      rest <- make_clusters units_per_cluster centers' ;;
      ret (cluster :: rest)
  end.

(** [np.vstack]: the rows of the arrays one after the other; an empty
    sequence of arrays is a [ValueError]. *)
Definition vstack (arrays : list (list point)) : result (list point) :=
  match arrays with
  | [] => Raise ValueError
  | _ :: _ => Ok (concat arrays)
  end.

Definition cluster_centers (num_clusters : nat) : Rand G (list point) :=
  draw_rows num_clusters (rs_uniform (s_of_Z (-50)) (s_of_Z 50)).

Definition generate_clusters (num_clusters units_per_cluster : nat)
  : Rand G (list (list point)) :=
  centers <- cluster_centers num_clusters ;;
  make_clusters units_per_cluster centers.

Definition generate_units (num_clusters units_per_cluster : nat)
  : Rand G (result (list point)) :=
  clusters <- generate_clusters num_clusters units_per_cluster ;;
  ret (vstack clusters).

End Generator.

(** ** Grid builder (lines 24-30) *)

Definition margin : T := s_of_Z 20.

(** [units.min(axis=0)] and [units.max(axis=0)]: a reduction along the rows,
    a [ValueError] on an array of no rows. *)
Definition reduce_axis0 (f : T -> T -> T) (units : list point) : result point :=
  match units with
  | [] => Raise ValueError
  | u :: us =>
      Ok (fold_left (fun acc p => (f (fst acc) (fst p), f (snd acc) (snd p))) us u)
  end.

Definition units_min : list point -> result point := reduce_axis0 s_minimum.
Definition units_max : list point -> result point := reduce_axis0 s_maximum.

(** [np.linspace(start, stop, num)], endpoint included. *)
Definition linspace (start stop : T) (num : nat) : array1 :=
  let div := (Z.of_nat num - 1)%Z in
  let delta := s_sub stop start in
  let y := map (fun i => s_of_Z (Z.of_nat i)) (seq 0 num) in
  let y :=
    if (0 <? div)%Z then
      let step := s_div delta (s_of_Z div) in
      if s_eqb step (s_of_Z 0)
      then map (fun v => s_mul (s_div v (s_of_Z div)) delta) y
      else map (fun v => s_mul v step) y
    else map (fun v => s_mul v delta) y in
  let y := map (fun v => s_add v start) y in
  if (1 <? num)%nat then removelast y ++ [stop] else y.

(** [np.meshgrid(x, y)] with its default ['xy'] indexing: both arrays have
    [len(y)] rows and [len(x)] columns. *)
Definition meshgrid (x y : array1) : array2 * array2 :=
  (map (fun _ => x) y, map (fun yi => map (fun _ => yi) x) y).

Record grid : Type := {
  g_xmin : T; g_ymin : T; g_xmax : T; g_ymax : T;
  g_x : array1; g_y : array1;
  g_X : array2; g_Y : array2
}.

Definition build_grid (units : list point) (m : T) (grid_res : nat) : result grid :=
  rbind (units_min units) (fun lo =>
  rbind (units_max units) (fun hi =>
    let xmin := s_sub (fst lo) m in
    let ymin := s_sub (snd lo) m in
    let xmax := s_add (fst hi) m in
    let ymax := s_add (snd hi) m in
    let x := linspace xmin xmax grid_res in
    let y := linspace ymin ymax grid_res in
    let XY := meshgrid x y in
    Ok {| g_xmin := xmin; g_ymin := ymin; g_xmax := xmax; g_ymax := ymax;
          g_x := x; g_y := y; g_X := fst XY; g_Y := snd XY |})).

(** ** Field evaluator (lines 33-41) *)

Definition zeros_like (A : array2) : array2 := arr_map (fun _ => s_of_Z 0) A.

Definition sq (v : T) : T := s_mul v v.

(** The kernel of one unit at one grid point, as line 38 computes it. *)
Definition kernel (sigma : T) (px py : T) (u : point) : T :=
  let dx := s_sub px (fst u) in
  let dy := s_sub py (snd u) in
  s_exp (s_div (s_opp (s_add (sq dx) (sq dy)))
               (s_mul (s_of_Z 2) (sq sigma))).

(** One turn of the loop of lines 35-38: the value it leaves in [field]
    when line 38 completes.  Python itself raises on [sigma ** 2] when the
    square of a finite [sigma] is not finite; that check is in
    [add_unit_checked] below, which returns this value when it passes. *)
Definition add_unit (X Y : array2) (sigma : T) (field : array2) (u : point)
  : array2 :=
  let dx := arr_scalar s_sub X (fst u) in
  let dy := arr_scalar s_sub Y (snd u) in
  let denom := s_mul (s_of_Z 2) (sq sigma) in
  arr_arr s_add field
    (arr_map s_exp
       (arr_scalar s_div
          (arr_map s_opp (arr_arr s_add (arr_map sq dx) (arr_map sq dy)))
          denom)).

(** Lines 33-38: the field before normalisation. *)
Definition accumulate (X Y : array2) (units : list point) (sigma : T) : array2 :=
  fold_left (add_unit X Y sigma) units (zeros_like X).

(** [field.max()]: the reduction over all entries, a [ValueError] on an
    array of no entries. *)
Definition field_max (field : array2) : result T :=
  match concat field with
  | [] => Raise ValueError
  | v :: vs => Ok (fold_left s_maximum vs v)
  end.

(** Line 41: [field /= field.max()]. *)
Definition normalize (field : array2) : result array2 :=
  rbind (field_max field) (fun m => Ok (arr_scalar s_div field m)).

Definition evaluate_field (X Y : array2) (units : list point) (sigma : T)
  : result array2 :=
  normalize (accumulate X Y units sigma).

(** ** The script up to the renderer *)

Record render_input : Type := {
  ri_X : array2;
  ri_Y : array2;
  ri_field : array2;
  ri_levels : list T;
  ri_units : list point
}.

(** Lines 24-41 on a given unit collection. *)
Definition field_of_units (units : list point) (sigma threshold : T)
  (grid_res : nat) : result render_input :=
  rbind (build_grid units margin grid_res) (fun g =>
  rbind (evaluate_field (g_X g) (g_Y g) units sigma) (fun field =>
    Ok {| ri_X := g_X g; ri_Y := g_Y g; ri_field := field;
          ri_levels := [threshold]; ri_units := units |})).

Section Script.

Context {G : Type} {RS : RandomSource G T}.

(** Lines 14-41, from the random state the process happens to be in. *)
Definition pipeline (num_clusters units_per_cluster : nat) (sigma threshold : T)
  (grid_res : nat) : Rand G (result render_input) :=
  r <- generate_units num_clusters units_per_cluster ;;
  ret (rbind r (fun units => field_of_units units sigma threshold grid_res)).

(** The script with line 11 enabled: [np.random.seed seed] replaces the
    state the process was in before the first draw. *)
Definition pipeline_seeded (seed : Z) (num_clusters units_per_cluster : nat)
  (sigma threshold : T) (grid_res : nat) : Rand G (result render_input) :=
  fun _ => pipeline num_clusters units_per_cluster sigma threshold grid_res
             (rs_seed seed).

End Script.

End Pipeline.

Arguments point T : clear implicits.
Arguments array1 T : clear implicits.
Arguments array2 T : clear implicits.
Arguments grid T : clear implicits.
Arguments render_input T : clear implicits.

(** ** The two arithmetics *)

(** Exact real arithmetic. *)
#[export] Instance real_scalar : Scalar R := {|
  s_of_Z := IZR;
  s_add := Rplus;
  s_sub := Rminus;
  s_mul := Rmult;
  s_div := Rdiv;
  s_opp := Ropp;
  s_exp := exp;
  s_eqb := fun a b => if Req_dec_T a b then true else false;
  s_maximum := Rmax;
  s_minimum := Rmin
|}.

(** [np.maximum] and [np.minimum] on binary64: a NaN operand is the result. *)
Definition float_maximum (a b : float) : float :=
  if PrimFloat.is_nan a then a
  else if PrimFloat.is_nan b then b
  else if PrimFloat.ltb a b then b else a.

Definition float_minimum (a b : float) : float :=
  if PrimFloat.is_nan a then a
  else if PrimFloat.is_nan b then b
  else if PrimFloat.ltb b a then b else a.

Definition float_of_Z (z : Z) : float :=
  match z with
  | Zneg p => PrimFloat.opp (PrimFloat.of_uint63 (Uint63.of_Z (Zpos p)))
  | _ => PrimFloat.of_uint63 (Uint63.of_Z z)
  end.

(** Binary64, as NumPy computes; the only operation the primitive floats
    lack is the exponential of the C library, taken as [fexp]. *)
Definition float_scalar (fexp : float -> float) : Scalar float := {|
  s_of_Z := float_of_Z;
  s_add := PrimFloat.add;
  s_sub := PrimFloat.sub;
  s_mul := PrimFloat.mul;
  s_div := PrimFloat.div;
  s_opp := PrimFloat.opp;
  s_exp := fexp;
  s_eqb := PrimFloat.eqb;
  s_maximum := float_maximum;
  s_minimum := float_minimum
|}.

(** ** Python's own float arithmetic

    [sigma] is a Python float, not a NumPy scalar, so [sigma ** 2] at line 38
    is Python's power: when the operand is finite and its square is not, it
    raises [OverflowError], where NumPy would return an infinity.  An
    infinite or NaN [sigma] and an underflow to zero raise nothing.  Nothing
    else on lines 14-41 is computed by Python itself: [2 * x] on floats
    raises nothing, and the arrays are NumPy's. *)
Class PythonFloat (T : Type) : Type := {
  square_overflows : T -> bool
}.

#[export] Instance real_python : PythonFloat R := {|
  square_overflows := fun _ => false
|}.

#[export] Instance float_python : PythonFloat float := {|
  square_overflows := fun v =>
    PrimFloat.is_finite v && PrimFloat.is_infinity (PrimFloat.mul v v)
|}.

Section Checked.

Context {T : Type} {SC : Scalar T} {PY : PythonFloat T}.

Local Open Scope rand_scope.

(** [sigma ** 2]. *)
Definition py_square (v : T) : result T :=
  if square_overflows v then Raise OverflowError else Ok (sq v).

(** One turn of the loop of lines 35-38 as Python runs it: [sigma ** 2] is
    evaluated, and may raise, before the kernel is added to the field. *)
Definition add_unit_checked (X Y : array2 T) (sigma : T) (field : array2 T)
  (u : point T) : result (array2 T) :=
  rbind (py_square sigma) (fun _ => Ok (add_unit X Y sigma field u)).

(** The loop of lines 35-38: it stops at the first turn that raises. *)
Fixpoint accumulate_loop (X Y : array2 T) (sigma : T) (units : list (point T))
  (field : array2 T) : result (array2 T) :=
  match units with
  | [] => Ok field
  | u :: units' =>
      rbind (add_unit_checked X Y sigma field u)
            (accumulate_loop X Y sigma units')
  end.

(** Lines 33-38. *)
Definition accumulate_checked (X Y : array2 T) (units : list (point T))
  (sigma : T) : result (array2 T) :=
  accumulate_loop X Y sigma units (zeros_like X).

(** Lines 33-41. *)
Definition evaluate_field_checked (X Y : array2 T) (units : list (point T))
  (sigma : T) : result (array2 T) :=
  rbind (accumulate_checked X Y units sigma) normalize.

(** Lines 24-41 on a given unit collection. *)
Definition field_of_units_checked (units : list (point T)) (sigma threshold : T)
  (grid_res : nat) : result (render_input T) :=
  rbind (build_grid units margin grid_res) (fun g =>
  rbind (evaluate_field_checked (g_X g) (g_Y g) units sigma) (fun field =>
    Ok {| ri_X := g_X g; ri_Y := g_Y g; ri_field := field;
          ri_levels := [threshold]; ri_units := units |})).

(** Lines 14-41 as Python runs them. *)
Definition script {G : Type} {RS : RandomSource G T}
  (num_clusters units_per_cluster : nat) (sigma threshold : T)
  (grid_res : nat) : Rand G (result (render_input T)) :=
  r <- generate_units num_clusters units_per_cluster ;;
  ret (rbind r (fun units =>
         field_of_units_checked units sigma threshold grid_res)).

End Checked.

(** ** Minimum and maximum of a collection of reals, as a specification *)

Definition is_min_of (vs : list R) (v : R) : Prop :=
  In v vs /\ forall w, In w vs -> (v <= w)%R.

Definition is_max_of (vs : list R) (v : R) : Prop :=
  In v vs /\ forall w, In w vs -> (w <= v)%R.

(** ** A random source that replays a tape

    NumPy derives both distributions from standard draws:
    [uniform(low, high)] is [low + (high - low) * random_sample()] and
    [normal(loc, scale)] is [loc + scale * standard_normal()].  The tape
    holds the standard draws in the order the script consumes them; a tape
    that has run out keeps yielding zero.  [tape_of_seed] is the stream a
    seed stands for. *)

Definition next_draw {T : Type} {SC : Scalar T} : Rand (list T) T :=
  fun tape =>
    match tape with
    | [] => (s_of_Z 0, [])
    | v :: tape' => (v, tape')
    end.

Definition tape_source {T : Type} {SC : Scalar T} (tape_of_seed : Z -> list T)
  : RandomSource (list T) T := {|
  rs_seed := tape_of_seed;
  rs_uniform := fun low high =>
    bind next_draw (fun v => ret (s_add low (s_mul (s_sub high low) v)));
  rs_normal := fun loc scale =>
    bind next_draw (fun v => ret (s_add loc (s_mul scale v)))
|}.

(** ** Moving a unit collection *)

(** Every unit moved by [(a, b)]. *)
Definition shift_units {T : Type} {SC : Scalar T} (a b : T)
  (units : list (point T)) : list (point T) :=
  map (fun p => (s_add (fst p) a, s_add (snd p) b)) units.

(** ** What a computation takes from the tape

    [reads k Q m]: on a tape that starts with the [k] draws [pre], [m]
    returns a value that depends on [pre] only and satisfies [Q], and leaves
    exactly the rest of the tape. *)
Definition reads {T A : Type} (k : nat) (Q : A -> Prop) (m : Rand (list T) A)
  : Prop :=
  forall pre, length pre = k ->
    exists a, Q a /\ forall rest, m (pre ++ rest) = (a, rest).

(** * Facts that hold in every arithmetic *)

Section ArrayFacts.

Context {T : Type} {SC : Scalar T}.

Lemma nth_map_lt {A B} (f : A -> B) (l : list A) (i : nat) (da : A) (db : B) :
  (i < length l)%nat -> nth i (map f l) db = f (nth i l da).
Proof.
  revert i; induction l as [|a l IH]; intros [|i] Hi; simpl in *;
    try lia; auto.
  apply IH; lia.
Qed.

Lemma nth_map2 {A B C} (f : A -> B -> C) xs ys (i : nat) da db dc :
  (i < length xs)%nat -> (i < length ys)%nat ->
  nth i (map2 f xs ys) dc = f (nth i xs da) (nth i ys db).
Proof.
  unfold map2.
  revert ys i; induction xs as [|x xs IH]; intros [|y ys] [|i] Hx Hy;
    simpl in *; try lia; auto.
  apply IH; lia.
Qed.

Lemma length_map2 {A B C} (f : A -> B -> C) xs ys :
  length xs = length ys -> length (map2 f xs ys) = length xs.
Proof.
  intros H. unfold map2. rewrite length_map, length_combine. lia.
Qed.

Lemma row_length_shape (A : array2 T) (i : nat) :
  length (nth i A []) = nth i (shape A) 0%nat.
Proof.
  unfold shape. change 0%nat with (length (@nil T)). now rewrite map_nth.
Qed.

Lemma shape_length (A B : array2 T) : shape A = shape B -> length A = length B.
Proof.
  unfold shape; intros H.
  rewrite <- (length_map (@length T) A), H. apply length_map.
Qed.

Lemma in_range_shape (A B : array2 T) i j :
  shape A = shape B -> in_range A i j -> in_range B i j.
Proof.
  intros H [Hi Hj]. split.
  - now rewrite <- (shape_length A B H).
  - now rewrite row_length_shape, <- H, <- row_length_shape.
Qed.

Lemma shape_arr_map (f : T -> T) (A : array2 T) : shape (arr_map f A) = shape A.
Proof.
  unfold shape, arr_map. rewrite map_map. apply map_ext.
  intros row. apply length_map.
Qed.

Lemma shape_arr_scalar (f : T -> T -> T) (A : array2 T) (s : T) :
  shape (arr_scalar f A s) = shape A.
Proof. apply (shape_arr_map (fun a => f a s)). Qed.

Lemma shape_arr_arr (f : T -> T -> T) (A B : array2 T) :
  shape A = shape B -> shape (arr_arr f A B) = shape A.
Proof.
  unfold shape, arr_arr, map2.
  revert B; induction A as [|r A IH]; intros [|r' B] H; simpl in *;
    try discriminate; auto.
  injection H as Hr HA. f_equal.
  - rewrite length_map, length_combine. lia.
  - now apply IH.
Qed.

Lemma at2_arr_map (f : T -> T) (A : array2 T) i j :
  in_range A i j -> at2 (arr_map f A) i j = f (at2 A i j).
Proof.
  intros [Hi Hj]. unfold at2, arr_map.
  rewrite (nth_map_lt (map f) A i [] [] Hi).
  now apply nth_map_lt.
Qed.

Lemma at2_arr_scalar (f : T -> T -> T) (A : array2 T) (s : T) i j :
  in_range A i j -> at2 (arr_scalar f A s) i j = f (at2 A i j) s.
Proof. apply (at2_arr_map (fun a => f a s)). Qed.

Lemma at2_arr_arr (f : T -> T -> T) (A B : array2 T) i j :
  shape A = shape B -> in_range A i j ->
  at2 (arr_arr f A B) i j = f (at2 A i j) (at2 B i j).
Proof.
  intros HS HA. pose proof (in_range_shape A B i j HS HA) as HB.
  destruct HA as [Hi Hj], HB as [Hi' Hj'].
  unfold at2, arr_arr.
  rewrite (nth_map2 (map2 f) A B i [] [] [] Hi Hi').
  now apply nth_map2.
Qed.

Lemma at2_zeros_like (A : array2 T) i j :
  in_range A i j -> at2 (zeros_like A) i j = s_of_Z 0.
Proof. intros H. unfold zeros_like. now rewrite at2_arr_map. Qed.

Lemma shape_add_unit (X Y field : array2 T) (sigma : T) (u : point T) :
  shape X = shape Y -> shape field = shape X ->
  shape (add_unit X Y sigma field u) = shape X.
Proof.
  intros HXY HF. unfold add_unit.
  rewrite shape_arr_arr; auto.
  rewrite shape_arr_map, shape_arr_scalar, shape_arr_map, shape_arr_arr,
    shape_arr_map, shape_arr_scalar; auto.
  now rewrite !shape_arr_map, !shape_arr_scalar.
Qed.

Lemma at2_add_unit (X Y field : array2 T) (sigma : T) (u : point T) i j :
  shape X = shape Y -> shape field = shape X -> in_range X i j ->
  at2 (add_unit X Y sigma field u) i j
  = s_add (at2 field i j) (kernel sigma (at2 X i j) (at2 Y i j) u).
Proof.
  intros HXY HF HX.
  assert (HY : in_range Y i j) by now apply (in_range_shape X Y).
  assert (Hf : in_range field i j).
  { apply (in_range_shape X); auto. }
  assert (Hdx : shape (arr_map sq (arr_scalar s_sub X (fst u))) = shape X)
    by now rewrite shape_arr_map, shape_arr_scalar.
  assert (Hdy : shape (arr_map sq (arr_scalar s_sub Y (snd u))) = shape X)
    by now rewrite shape_arr_map, shape_arr_scalar.
  assert (Hs : shape (arr_arr s_add (arr_map sq (arr_scalar s_sub X (fst u)))
                        (arr_map sq (arr_scalar s_sub Y (snd u)))) = shape X)
    by (rewrite shape_arr_arr; congruence).
  unfold add_unit, kernel.
  rewrite at2_arr_arr; auto.
  2:{ now rewrite shape_arr_map, shape_arr_scalar, shape_arr_map, Hs. }
  f_equal.
  rewrite at2_arr_map.
  2:{ apply (in_range_shape X); auto.
      now rewrite shape_arr_scalar, shape_arr_map, Hs. }
  f_equal.
  rewrite at2_arr_scalar.
  2:{ apply (in_range_shape X); auto. now rewrite shape_arr_map, Hs. }
  f_equal.
  rewrite at2_arr_map.
  2:{ apply (in_range_shape X); auto. }
  f_equal.
  rewrite at2_arr_arr; try congruence.
  2:{ apply (in_range_shape X); auto. }
  rewrite !at2_arr_map, !at2_arr_scalar; auto.
  - apply (in_range_shape Y); auto. now rewrite shape_arr_scalar.
  - apply (in_range_shape X); auto. now rewrite shape_arr_scalar.
Qed.

Lemma shape_zeros_like (A : array2 T) : shape (zeros_like A) = shape A.
Proof. apply shape_arr_map. Qed.

Lemma shape_fold_add_unit (X Y : array2 T) (sigma : T) units field :
  shape X = shape Y -> shape field = shape X ->
  shape (fold_left (add_unit X Y sigma) units field) = shape X.
Proof.
  intros HXY. revert field.
  induction units as [|u units IH]; intros field HF; simpl; auto.
  apply IH. now apply shape_add_unit.
Qed.

Lemma at2_fold_add_unit (X Y : array2 T) (sigma : T) units field i j :
  shape X = shape Y -> shape field = shape X -> in_range X i j ->
  at2 (fold_left (add_unit X Y sigma) units field) i j
  = fold_left (fun acc u => s_add acc (kernel sigma (at2 X i j) (at2 Y i j) u))
      units (at2 field i j).
Proof.
  intros HXY HF HX. revert field HF.
  induction units as [|u units IH]; intros field HF; simpl; auto.
  rewrite IH by now apply shape_add_unit.
  now rewrite at2_add_unit.
Qed.

End ArrayFacts.

Section GridFacts.

Context {T : Type} {SC : Scalar T}.

Lemma length_removelast {A} (l : list A) :
  length (removelast l) = (length l - 1)%nat.
Proof.
  induction l as [|a [|b l] IH]; simpl in *; auto. lia.
Qed.

Lemma nth_removelast {A} (l : list A) (i : nat) (d : A) :
  (i < length l - 1)%nat -> nth i (removelast l) d = nth i l d.
Proof.
  revert i; induction l as [|a [|b l] IH]; intros i Hi; simpl in *; try lia.
  destruct i as [|i]; auto. apply IH. lia.
Qed.

Lemma nth_set_last {A} (l : list A) (s d : A) (i : nat) :
  (0 < length l)%nat ->
  nth i (removelast l ++ [s]) d
  = if (i =? length l - 1)%nat then s
    else if (i <? length l - 1)%nat then nth i l d else d.
Proof.
  intros Hl.
  destruct (Nat.eqb_spec i (length l - 1)) as [->|Hne].
  - rewrite app_nth2; rewrite length_removelast; try lia.
    now rewrite Nat.sub_diag.
  - destruct (Nat.ltb_spec i (length l - 1)) as [Hlt|Hge].
    + rewrite app_nth1 by (rewrite length_removelast; lia).
      now apply nth_removelast.
    + apply nth_overflow. rewrite length_app, length_removelast. simpl. lia.
Qed.

Lemma length_linspace (start stop : T) (num : nat) :
  length (linspace start stop num) = num.
Proof.
  unfold linspace.
  assert (H : forall f : T -> T,
             length (map f (map (fun i => s_of_Z (Z.of_nat i)) (seq 0 num))) = num)
    by (intros f; now rewrite !length_map, length_seq).
  assert (H' : forall l : list T, length l = num ->
               length (if (1 <? num)%nat then removelast l ++ [stop] else l) = num).
  { intros l Hl. destruct (Nat.ltb_spec 1 num); auto.
    rewrite length_app, length_removelast. simpl. lia. }
  apply H'. rewrite length_map.
  destruct (0 <? Z.of_nat num - 1)%Z; [destruct (s_eqb _ _)|]; apply H.
Qed.

(** The first sample of a non-empty axis, as computed. *)
Lemma linspace_first_one (start stop : T) :
  linspace start stop 1 = [s_add (s_mul (s_of_Z 0) (s_sub stop start)) start].
Proof. reflexivity. Qed.

Lemma linspace_last (start stop : T) (num : nat) :
  (2 <= num)%nat -> nth (num - 1) (linspace start stop num) (s_of_Z 0) = stop.
Proof.
  intros Hn. unfold linspace.
  destruct (Nat.ltb_spec 1 num) as [_|]; try lia.
  rewrite nth_set_last.
  - rewrite !length_map.
    destruct (0 <? Z.of_nat num - 1)%Z; [destruct (s_eqb _ _)|];
      rewrite !length_map, length_seq, Nat.eqb_refl; reflexivity.
  - rewrite !length_map.
    destruct (0 <? Z.of_nat num - 1)%Z; [destruct (s_eqb _ _)|];
      rewrite !length_map, length_seq; lia.
Qed.

Lemma length_meshgrid_X (x y : array1 T) : length (fst (meshgrid x y)) = length y.
Proof. simpl. apply length_map. Qed.

Lemma length_meshgrid_Y (x y : array1 T) : length (snd (meshgrid x y)) = length y.
Proof. simpl. apply length_map. Qed.

Lemma shape_meshgrid (x y : array1 T) :
  shape (fst (meshgrid x y)) = shape (snd (meshgrid x y)).
Proof.
  unfold shape, meshgrid; simpl. rewrite !map_map.
  apply map_ext. intros yi. now rewrite length_map.
Qed.

Lemma meshgrid_row_X (x y : array1 T) (i : nat) :
  (i < length y)%nat -> nth i (fst (meshgrid x y)) [] = x.
Proof.
  intros Hi. unfold meshgrid; cbn [fst].
  apply (nth_map_lt (fun _ => x) y i (s_of_Z 0) [] Hi).
Qed.

Lemma meshgrid_row_Y (x y : array1 T) (i : nat) :
  (i < length y)%nat ->
  nth i (snd (meshgrid x y)) [] = map (fun _ => nth i y (s_of_Z 0)) x.
Proof.
  intros Hi. unfold meshgrid; cbn [snd].
  apply (nth_map_lt (fun yi => map (fun _ => yi) x) y i (s_of_Z 0) [] Hi).
Qed.

Lemma meshgrid_in_range (x y : array1 T) (i j : nat) :
  (i < length y)%nat -> (j < length x)%nat ->
  in_range (fst (meshgrid x y)) i j.
Proof.
  intros Hi Hj. split.
  - now rewrite length_meshgrid_X.
  - now rewrite meshgrid_row_X.
Qed.

Lemma meshgrid_at2 (x y : array1 T) (i j : nat) :
  (i < length y)%nat -> (j < length x)%nat ->
  at2 (fst (meshgrid x y)) i j = nth j x (s_of_Z 0) /\
  at2 (snd (meshgrid x y)) i j = nth i y (s_of_Z 0).
Proof.
  intros Hi Hj. unfold at2. split.
  - now rewrite meshgrid_row_X.
  - rewrite meshgrid_row_Y by assumption.
    now rewrite (nth_map_lt _ x j (s_of_Z 0) (s_of_Z 0) Hj).
Qed.

Lemma reduce_axis0_ok (f : T -> T -> T) (units : list (point T)) :
  units <> [] -> exists p, reduce_axis0 f units = Ok p.
Proof.
  destruct units as [|u us]; [congruence|]. intros _. simpl. eauto.
Qed.

(** On a collection of at least one unit the grid builder returns, and its
    fields are the ones lines 25-30 compute. *)
Lemma build_grid_ok (units : list (point T)) (m : T) (grid_res : nat) :
  units <> [] ->
  exists lo hi,
    units_min units = Ok lo /\ units_max units = Ok hi /\
    build_grid units m grid_res
    = Ok (let x := linspace (s_sub (fst lo) m) (s_add (fst hi) m) grid_res in
          let y := linspace (s_sub (snd lo) m) (s_add (snd hi) m) grid_res in
          {| g_xmin := s_sub (fst lo) m; g_ymin := s_sub (snd lo) m;
             g_xmax := s_add (fst hi) m; g_ymax := s_add (snd hi) m;
             g_x := x; g_y := y;
             g_X := fst (meshgrid x y); g_Y := snd (meshgrid x y) |}).
Proof.
  intros Hne.
  destruct (reduce_axis0_ok s_minimum units Hne) as [lo Hlo].
  destruct (reduce_axis0_ok s_maximum units Hne) as [hi Hhi].
  exists lo, hi. unfold build_grid, units_min, units_max.
  rewrite Hlo, Hhi. simpl. auto.
Qed.

End GridFacts.

Section GeneratorFacts.

Context {T : Type} {SC : Scalar T} {G : Type} {RS : RandomSource G T}.

Lemma length_draw_rows (n : nat) (draw : Rand G T) (g : G) :
  length (fst (draw_rows n draw g)) = n.
Proof.
  revert g; induction n as [|n IH]; intros g; simpl; auto.
  unfold bind. destruct (draw g) as [a g1]. destruct (draw g1) as [b g2].
  specialize (IH g2). destruct (draw_rows n draw g2) as [rest g3].
  simpl in *. now rewrite IH.
Qed.

Lemma make_cluster_spec (upc : nat) (center : point T) (g : G) :
  cluster_of upc center (fst (make_cluster upc center g)).
Proof.
  unfold make_cluster, bind, ret.
  pose proof (length_draw_rows upc (rs_normal (s_of_Z 0) (s_of_Z 5)) g) as H.
  destruct (draw_rows upc _ g) as [noise g1]. simpl in *.
  exists noise. auto.
Qed.

Lemma make_clusters_spec (upc : nat) (centers : list (point T)) (g : G) :
  Forall2 (cluster_of upc) centers (fst (make_clusters upc centers g)).
Proof.
  revert g; induction centers as [|c centers IH]; intros g; simpl.
  - constructor.
  - unfold bind. pose proof (make_cluster_spec upc c g) as Hc.
    destruct (make_cluster upc c g) as [cluster g1].
    specialize (IH g1). destruct (make_clusters upc centers g1) as [rest g2].
    simpl in *. now constructor.
Qed.

Lemma cluster_of_length (upc : nat) (center : point T) cluster :
  cluster_of upc center cluster -> length cluster = upc.
Proof.
  intros [noise [Hn ->]]. unfold add_center. now rewrite length_map.
Qed.

Lemma length_concat_uniform {A} (k : nat) (ls : list (list A)) :
  Forall (fun l => length l = k) ls ->
  length (concat ls) = (length ls * k)%nat.
Proof.
  induction 1 as [|l ls Hl _ IH]; simpl; auto.
  rewrite length_app, IH, Hl. reflexivity.
Qed.

(** Row [c * k + p] of a stack of arrays of [k] rows each is row [p] of
    array [c]. *)
Lemma nth_concat_uniform {A} (k : nat) (ls : list (list A)) (c p : nat) (d : A) :
  Forall (fun l => length l = k) ls ->
  (c < length ls)%nat -> (p < k)%nat ->
  nth (c * k + p) (concat ls) d = nth p (nth c ls []) d.
Proof.
  intros H; revert c; induction H as [|l ls Hl _ IH]; intros c Hc Hp;
    simpl in *; try lia.
  destruct c as [|c].
  - simpl. now rewrite app_nth1 by lia.
  - rewrite app_nth2 by (simpl; lia).
    replace (S c * k + p - length l)%nat with (c * k + p)%nat by (simpl; lia).
    apply IH; lia.
Qed.

Lemma Forall2_cluster_lengths (upc : nat) centers clusters :
  Forall2 (cluster_of upc) centers clusters ->
  length clusters = length centers /\
  Forall (fun l => length l = upc) clusters.
Proof.
  induction 1 as [|c cl centers clusters Hc _ [IH1 IH2]]; simpl; auto.
  split; [now rewrite IH1|]. constructor; auto.
  now apply cluster_of_length with c.
Qed.

(** What the generator computes, whatever the counts. *)
Lemma generate_clusters_spec (nc upc : nat) (g : G) :
  let centers := fst (cluster_centers nc g) in
  let clusters := fst (generate_clusters nc upc g) in
  length centers = nc /\
  Forall2 (cluster_of upc) centers clusters /\
  fst (generate_units nc upc g) = vstack clusters.
Proof.
  unfold generate_units, generate_clusters, cluster_centers, bind, ret.
  pose proof (length_draw_rows nc (rs_uniform (s_of_Z (-50)) (s_of_Z 50)) g) as Hc.
  destruct (draw_rows nc _ g) as [centers g1].
  pose proof (make_clusters_spec upc centers g1) as Hm.
  destruct (make_clusters upc centers g1) as [clusters g2].
  simpl in *. auto.
Qed.

End GeneratorFacts.

(** * The claims that hold in every arithmetic *)

(** C1.  Before normalisation the field is, at every grid point [(i, j)],
    the sum over the units [(ux, uy)], in the order of the collection and
    starting from zero, of
    [exp (- ((X[i,j] - ux)^2 + (Y[i,j] - uy)^2) / (2 * sigma^2))];
    the field has the shape of [X], and with no unit it is the zero field.
    This holds for every [sigma], the positive ones included, and in both
    arithmetics. *)
Theorem accumulate_is_kernel_sum {T : Type} {SC : Scalar T}
  (X Y : array2 T) (units : list (point T)) (sigma : T) (i j : nat) :
  shape X = shape Y -> in_range X i j ->
  shape (accumulate X Y units sigma) = shape X /\
  at2 (accumulate X Y [] sigma) i j = s_of_Z 0 /\
  at2 (accumulate X Y units sigma) i j
  = fold_left
      (fun acc u =>
         s_add acc
           (s_exp (s_div
                     (s_opp (s_add (sq (s_sub (at2 X i j) (fst u)))
                                   (sq (s_sub (at2 Y i j) (snd u)))))
                     (s_mul (s_of_Z 2) (sq sigma)))))
      units (s_of_Z 0).
Proof.
  intros HXY HX. unfold accumulate. split; [|split].
  - apply shape_fold_add_unit; auto. apply shape_zeros_like.
  - simpl. now apply at2_zeros_like.
  - rewrite at2_fold_add_unit; auto using shape_zeros_like.
    now rewrite at2_zeros_like.
Qed.

Lemma accumulate_is_kernel_sum_witness :
  shape [[1%R]] = shape [[2%R]] /\ in_range [[1%R]] 0 0 /\
  at2 (accumulate [[1%R]] [[2%R]] [(0%R, 0%R)] 3%R) 0 0
  = (0 + exp (- ((1 - 0) * (1 - 0) + (2 - 0) * (2 - 0)) / (2 * (3 * 3))))%R.
Proof.
  split; [reflexivity|]. split; [split; simpl; lia|].
  refine (proj2 (proj2
    (accumulate_is_kernel_sum [[1%R]] [[2%R]] [(0%R, 0%R)] 3%R 0 0 _ _)));
    [reflexivity | split; simpl; lia].
Defined.

(** C5.  On a non-empty unit collection the grid builder returns two arrays
    [X] and [Y] of [grid_res] rows of [grid_res] entries each, with
    [X[i,j] = x[j]] and [Y[i,j] = y[i]]: cell [(i, j)] pairs the [j]-th
    sample of the x axis with the [i]-th sample of the y axis, so every
    combination [(x[a], y[b])] is in the mesh, at [(b, a)]. *)
Theorem build_grid_mesh {T : Type} {SC : Scalar T}
  (units : list (point T)) (m : T) (grid_res : nat) :
  units <> [] ->
  exists g, build_grid units m grid_res = Ok g /\
    length (g_x g) = grid_res /\ length (g_y g) = grid_res /\
    shape (g_X g) = repeat grid_res grid_res /\
    shape (g_Y g) = repeat grid_res grid_res /\
    (forall i j, (i < grid_res)%nat -> (j < grid_res)%nat ->
       at2 (g_X g) i j = nth j (g_x g) (s_of_Z 0) /\
       at2 (g_Y g) i j = nth i (g_y g) (s_of_Z 0)) /\
    (forall a b, (a < grid_res)%nat -> (b < grid_res)%nat ->
       exists i j, (i < grid_res)%nat /\ (j < grid_res)%nat /\
         at2 (g_X g) i j = nth a (g_x g) (s_of_Z 0) /\
         at2 (g_Y g) i j = nth b (g_y g) (s_of_Z 0)).
Proof.
  intros Hne.
  destruct (build_grid_ok units m grid_res Hne) as (lo & hi & _ & _ & Hg).
  eexists; split; [exact Hg|]. cbn [g_x g_y g_X g_Y].
  set (x := linspace (s_sub (fst lo) m) (s_add (fst hi) m) grid_res).
  set (y := linspace (s_sub (snd lo) m) (s_add (snd hi) m) grid_res).
  assert (Hx : length x = grid_res) by apply length_linspace.
  assert (Hy : length y = grid_res) by apply length_linspace.
  assert (Hrep : forall (A : Type) (f : A -> nat) (l : list A) (k : nat),
             (forall a, f a = k) -> map f l = repeat k (length l)).
  { intros A f l k Hf. induction l as [|a l IH]; simpl; auto.
    now rewrite Hf, IH. }
  assert (Hat : forall i j, (i < grid_res)%nat -> (j < grid_res)%nat ->
            at2 (fst (meshgrid x y)) i j = nth j x (s_of_Z 0) /\
            at2 (snd (meshgrid x y)) i j = nth i y (s_of_Z 0)).
  { intros i j Hi Hj. apply meshgrid_at2; lia. }
  repeat split; auto.
  - unfold shape, meshgrid; cbn [fst]. rewrite map_map.
    rewrite (Hrep _ _ y grid_res); [now rewrite Hy | auto].
  - unfold shape, meshgrid; cbn [snd]. rewrite map_map.
    rewrite (Hrep _ _ y grid_res); [now rewrite Hy |].
    intros a. now rewrite length_map.
  - now apply Hat.
  - now apply Hat.
  - intros a b Ha Hb. exists b, a. repeat split; auto; now apply Hat.
Qed.

Lemma build_grid_mesh_witness :
  [(0%R, 0%R)] <> [] /\
  exists g, build_grid [(0%R, 0%R)] margin 3 = Ok g /\
            shape (g_X g) = [3; 3; 3]%nat /\ shape (g_Y g) = [3; 3; 3]%nat.
Proof.
  split; [discriminate|].
  destruct (build_grid_mesh [(0%R, 0%R)] margin 3 ltac:(discriminate))
    as (g & Hg & _ & _ & HX & HY & _).
  exists g. auto.
Defined.

(** C4.  For positive [num_clusters] and [units_per_cluster], and from any
    state of the random source, the generator returns
    [num_clusters * units_per_cluster] points in cluster-major order: the
    collection is the clusters one after the other, cluster [c] is made from
    centre [c] (the centres in the order they were drawn), and the point at
    index [c * units_per_cluster + p] is point [p] of cluster [c]. *)
Theorem generate_units_cluster_major {T : Type} {SC : Scalar T}
  {G : Type} {RS : RandomSource G T}
  (num_clusters units_per_cluster : nat) (g : G) :
  (0 < num_clusters)%nat -> (0 < units_per_cluster)%nat ->
  let centers := fst (cluster_centers num_clusters g) in
  let clusters := fst (generate_clusters num_clusters units_per_cluster g) in
  exists units,
    fst (generate_units num_clusters units_per_cluster g) = Ok units /\
    length units = (num_clusters * units_per_cluster)%nat /\
    units = concat clusters /\
    length centers = num_clusters /\
    Forall2 (cluster_of units_per_cluster) centers clusters /\
    forall c p d, (c < num_clusters)%nat -> (p < units_per_cluster)%nat ->
      nth (c * units_per_cluster + p) units d = nth p (nth c clusters []) d.
Proof.
  intros Hnc Hupc centers clusters.
  destruct (generate_clusters_spec num_clusters units_per_cluster g)
    as (Hlen & Hall & Hgen).
  fold centers clusters in Hlen, Hall, Hgen.
  destruct (Forall2_cluster_lengths _ _ _ Hall) as [Hcl Hk].
  exists (concat clusters). rewrite Hgen.
  assert (Hne : clusters <> []).
  { intros E. rewrite E in Hcl. simpl in Hcl. lia. }
  repeat split; auto.
  - unfold vstack. destruct clusters; congruence.
  - rewrite (length_concat_uniform units_per_cluster) by assumption. lia.
  - intros c p d Hc Hp. apply nth_concat_uniform; auto. lia.
Qed.

Lemma generate_units_cluster_major_witness :
  (0 < 2)%nat /\ (0 < 3)%nat /\
  exists units,
    fst (generate_units (RS := tape_source (fun _ => [])) 2 3 [1%R; 2%R]) = Ok units /\
    length units = 6%nat.
Proof.
  split; [lia|]. split; [lia|].
  destruct (generate_units_cluster_major (RS := tape_source (fun _ => []))
              2 3 [1%R; 2%R] ltac:(lia) ltac:(lia)) as (units & H1 & H2 & _).
  exists units. auto.
Defined.

(** C7, as the code has it.  With [units_per_cluster = 0] and a positive
    [num_clusters] the generator does not fail and returns the empty
    collection; with [num_clusters = 0] the list handed to [np.vstack] is
    empty and the generator raises [ValueError]. *)
Theorem generate_units_zero_counts {T : Type} {SC : Scalar T}
  {G : Type} {RS : RandomSource G T}
  (num_clusters units_per_cluster : nat) (g : G) :
  (0 < num_clusters)%nat ->
  fst (generate_units num_clusters 0 g) = Ok [] /\
  fst (generate_units 0 units_per_cluster g) = Raise ValueError.
Proof.
  intros Hnc. split; [|reflexivity].
  destruct (generate_clusters_spec num_clusters 0 g) as (Hlen & Hall & Hgen).
  rewrite Hgen.
  destruct (Forall2_cluster_lengths _ _ _ Hall) as [Hcl Hk].
  set (clusters := fst (generate_clusters num_clusters 0 g)) in *.
  assert (Hc : concat clusters = []).
  { apply length_zero_iff_nil.
    rewrite (length_concat_uniform 0) by assumption. lia. }
  unfold vstack. destruct clusters as [|c cs].
  - simpl in Hcl. lia.
  - now rewrite Hc.
Qed.

Lemma generate_units_zero_counts_witness :
  (0 < 4)%nat /\
  fst (generate_units (RS := tape_source (fun _ => [])) 4 0 [1%R]) = Ok [] /\
  fst (generate_units (RS := tape_source (fun _ => [])) 0 10 [1%R])
  = Raise ValueError.
Proof.
  split; [lia|].
  apply (generate_units_zero_counts (RS := tape_source (fun _ => []))
           4 10 [1%R]). lia.
Defined.

(** C7, as the spec states it, fails: with [num_clusters = 0] (and the
    script's [units_per_cluster = 10]) the generation stage raises. *)
Lemma generate_units_no_clusters_raises :
  ~ (exists units : list (point R),
       fst (generate_units (RS := tape_source (fun _ => [])) 0 10 []) = Ok units).
Proof. intros [units H]. discriminate H. Qed.

(** The units depend on the state the random source is in when the script
    starts (line 11, which would reset it, is commented out): two tapes that
    differ in their first draw give different units. *)
Example pipeline_unseeded_depends_on_state :
  fst (generate_units (RS := tape_source (fun _ => [])) 1 1 [0%R])
  <> fst (generate_units (RS := tape_source (fun _ => [])) 1 1 [1%R]).
Proof.
  cbv [generate_units generate_clusters cluster_centers make_clusters
       make_cluster draw_rows bind ret fst snd tape_source rs_uniform
       rs_normal next_draw vstack concat add_center map app].
  intros H. injection H as H. simpl in H. lra.
Qed.

(** * Exact real arithmetic *)

Section ConcatFacts.

Context {T : Type} {SC : Scalar T}.

Lemma at2_In_concat (A : array2 T) (i j : nat) :
  in_range A i j -> In (at2 A i j) (concat A).
Proof.
  intros [Hi Hj]. apply in_concat. exists (nth i A []). split.
  - now apply nth_In.
  - unfold at2. now apply nth_In.
Qed.

Lemma In_concat_at2 (A : array2 T) (v : T) :
  In v (concat A) -> exists i j, in_range A i j /\ at2 A i j = v.
Proof.
  intros H. apply in_concat in H. destruct H as (row & Hrow & Hv).
  destruct (In_nth A row [] Hrow) as (i & Hi & Ei).
  destruct (In_nth row v (s_of_Z 0) Hv) as (j & Hj & Ej).
  exists i, j. unfold in_range, at2. rewrite Ei. auto.
Qed.

Lemma concat_arr_scalar (f : T -> T -> T) (A : array2 T) (s : T) :
  concat (arr_scalar f A s) = map (fun a => f a s) (concat A).
Proof.
  unfold arr_scalar. induction A as [|row A IH]; simpl; auto.
  now rewrite map_app, IH.
Qed.

End ConcatFacts.

Section RealFacts.

Local Open Scope R_scope.

Lemma fold_Rmax_ge_init (vs : list R) (v : R) : v <= fold_left Rmax vs v.
Proof.
  revert v; induction vs as [|w vs IH]; intros v; simpl; [lra|].
  eapply Rle_trans; [apply (Rmax_l v w) | apply IH].
Qed.

Lemma fold_Rmax_upper (vs : list R) (v w : R) :
  In w vs -> w <= fold_left Rmax vs v.
Proof.
  revert v; induction vs as [|a vs IH]; intros v; simpl; [tauto|].
  intros [->|H]; [|now apply IH].
  eapply Rle_trans; [apply (Rmax_r v w) | apply fold_Rmax_ge_init].
Qed.

Lemma fold_Rmax_In (vs : list R) (v : R) :
  fold_left Rmax vs v = v \/ In (fold_left Rmax vs v) vs.
Proof.
  revert v; induction vs as [|a vs IH]; intros v; simpl; auto.
  destruct (IH (Rmax v a)) as [E|H]; auto.
  rewrite E. unfold Rmax. destruct (Rle_dec v a); auto.
Qed.

(** [field.max()] on a real field with at least one entry: an entry above
    all the others. *)
Lemma field_max_spec (field : array2 R) :
  concat field <> [] ->
  exists m, field_max field = Ok m /\ In m (concat field) /\
            forall v, In v (concat field) -> v <= m.
Proof.
  unfold field_max. destruct (concat field) as [|v vs]; [congruence|].
  intros _. exists (fold_left s_maximum vs v). simpl. repeat split.
  - destruct (fold_Rmax_In vs v) as [E|H]; auto.
  - intros w [<-|H]; [apply fold_Rmax_ge_init | now apply fold_Rmax_upper].
Qed.

Lemma field_max_unique (field : array2 R) (m : R) :
  In m (concat field) -> (forall v, In v (concat field) -> v <= m) ->
  field_max field = Ok m.
Proof.
  intros Hin Hub.
  destruct (field_max_spec field) as (m' & E & Hin' & Hub').
  { intros E. now rewrite E in Hin. }
  rewrite E. f_equal. apply Rle_antisym; auto.
Qed.

Lemma kernel_pos (sigma px py : R) (u : point R) : 0 < kernel sigma px py u.
Proof. unfold kernel. simpl. apply exp_pos. Qed.

Lemma kernel_sum_ge (k : point R -> R) (units : list (point R)) (a : R) :
  (forall u, 0 < k u) -> a <= fold_left (fun acc u => acc + k u) units a.
Proof.
  intros Hk. revert a; induction units as [|u units IH]; intros a; simpl; [lra|].
  specialize (IH (a + k u)). specialize (Hk u). lra.
Qed.

Lemma kernel_sum_pos (k : point R -> R) (units : list (point R)) :
  (forall u, 0 < k u) -> units <> [] ->
  0 < fold_left (fun acc u => acc + k u) units 0.
Proof.
  intros Hk Hne. destruct units as [|u units]; [congruence|]. simpl.
  pose proof (kernel_sum_ge k units (0 + k u) Hk). specialize (Hk u). lra.
Qed.

(** Every entry of the accumulated field is positive once there is a unit. *)
Lemma accumulate_pos (X Y : array2 R) (units : list (point R)) (sigma : R) i j :
  shape X = shape Y -> in_range X i j -> units <> [] ->
  0 < at2 (accumulate X Y units sigma) i j.
Proof.
  intros HXY HX Hne.
  unfold accumulate.
  rewrite at2_fold_add_unit, at2_zeros_like; auto using shape_zeros_like.
  apply (kernel_sum_pos (fun u => kernel sigma (at2 X i j) (at2 Y i j) u));
    auto using kernel_pos.
Qed.

End RealFacts.

Section MeshShape.

Context {T : Type} {SC : Scalar T}.

Lemma shape_meshgrid_X (x y : array1 T) :
  shape (fst (meshgrid x y)) = repeat (length x) (length y).
Proof.
  unfold shape, meshgrid; cbn [fst]. rewrite map_map. apply map_const.
Qed.

Lemma in_range_square (A : array2 T) (n i j : nat) :
  shape A = repeat n n ->
  in_range A i j <-> (i < n)%nat /\ (j < n)%nat.
Proof.
  intros H. unfold in_range.
  rewrite row_length_shape, H.
  assert (HL : length A = n).
  { rewrite <- (length_map (@length T) A). fold (shape A).
    rewrite H. apply repeat_length. }
  rewrite HL. split; intros [Hi Hj]; split; auto.
  - now rewrite nth_repeat_lt in Hj.
  - now rewrite nth_repeat_lt.
Qed.

Lemma shape_normalized (f : T -> T -> T) (A : array2 T) (s : T) (n : nat) :
  shape A = repeat n n -> shape (arr_scalar f A s) = repeat n n.
Proof. intros H. now rewrite shape_arr_scalar. Qed.

End MeshShape.

Section RealField.

Local Open Scope R_scope.

(** Lines 24-41 on a non-empty real unit collection and a grid of at least
    one sample per axis: no stage raises, the divisor of line 41 is the
    positive maximum of the accumulated field. *)
Lemma field_of_units_ok (units : list (point R)) (sigma threshold : R)
  (grid_res : nat) :
  units <> [] -> (0 < grid_res)%nat ->
  exists g m,
    build_grid units margin grid_res = Ok g /\
    shape (g_X g) = repeat grid_res grid_res /\
    shape (g_X g) = shape (g_Y g) /\
    field_max (accumulate (g_X g) (g_Y g) units sigma) = Ok m /\
    In m (concat (accumulate (g_X g) (g_Y g) units sigma)) /\
    (forall v, In v (concat (accumulate (g_X g) (g_Y g) units sigma)) ->
               0 < v <= m) /\
    field_of_units units sigma threshold grid_res
    = Ok {| ri_X := g_X g; ri_Y := g_Y g;
            ri_field := arr_scalar Rdiv
                          (accumulate (g_X g) (g_Y g) units sigma) m;
            ri_levels := [threshold]; ri_units := units |}.
Proof.
  intros Hne Hres.
  destruct (build_grid_ok units margin grid_res Hne) as (lo & hi & _ & _ & Hg).
  match type of Hg with _ = Ok ?r => set (g := r) in * end.
  assert (HX : shape (g_X g) = repeat grid_res grid_res).
  { unfold g; cbn [g_X]. now rewrite shape_meshgrid_X, !length_linspace. }
  assert (HXY : shape (g_X g) = shape (g_Y g)).
  { unfold g; cbn [g_X g_Y]. apply shape_meshgrid. }
  set (A := accumulate (g_X g) (g_Y g) units sigma).
  assert (HA : shape A = shape (g_X g)).
  { unfold A, accumulate.
    apply shape_fold_add_unit; auto using shape_zeros_like. }
  assert (Hpos : forall v, In v (concat A) -> 0 < v).
  { intros v Hv. apply In_concat_at2 in Hv.
    destruct Hv as (i & j & Hr & <-).
    apply accumulate_pos; auto. now apply (in_range_shape A). }
  assert (Hcat : concat A <> []).
  { assert (Hr : in_range A 0 0).
    { apply (in_range_square A grid_res); [congruence | lia]. }
    apply at2_In_concat in Hr. intros E. now rewrite E in Hr. }
  destruct (field_max_spec A Hcat) as (m & Hm & Hin & Hub).
  exists g, m. repeat split; auto.
  unfold field_of_units. rewrite Hg. cbn [rbind].
  unfold evaluate_field, normalize. fold A. rewrite Hm. reflexivity.
Qed.

End RealField.

(** C2, as it holds.  In exact real arithmetic, for every collection of at
    least one unit and every positive [sigma] (on a grid of at least one
    sample per axis, as the spec requires of [grid_res]), lines 24-41 return
    a field of [grid_res] by [grid_res] entries whose maximum, as
    [field.max()] computes it, is exactly 1 and whose entries all lie in
    [0, 1]. *)
Theorem normalized_field_max_is_one (units : list (point R))
  (sigma threshold : R) (grid_res : nat) :
  units <> [] -> (0 < sigma)%R -> (0 < grid_res)%nat ->
  exists ri,
    field_of_units units sigma threshold grid_res = Ok ri /\
    shape (ri_field ri) = repeat grid_res grid_res /\
    field_max (ri_field ri) = Ok 1%R /\
    forall i j, (i < grid_res)%nat -> (j < grid_res)%nat ->
                (0 <= at2 (ri_field ri) i j <= 1)%R.
Proof.
  intros Hne _ Hres.
  destruct (field_of_units_ok units sigma threshold grid_res Hne Hres)
    as (g & m & _ & HX & HXY & _ & Hin & Hb & Hf).
  eexists; split; [exact Hf|]. cbn [ri_field].
  set (A := accumulate (g_X g) (g_Y g) units sigma) in *.
  assert (HA : shape A = repeat grid_res grid_res).
  { rewrite <- HX. unfold A, accumulate.
    apply shape_fold_add_unit; auto using shape_zeros_like. }
  assert (Hm : (0 < m)%R) by (apply (Hb m Hin)).
  assert (Hentry : forall v, In v (concat (arr_scalar Rdiv A m)) ->
                             (0 <= v <= 1)%R).
  { intros v Hv. rewrite concat_arr_scalar in Hv.
    apply in_map_iff in Hv. destruct Hv as (a & <- & Ha).
    destruct (Hb a Ha) as [H0 H1]. split.
    - apply Rlt_le, Rdiv_lt_0_compat; assumption.
    - apply (Rmult_le_reg_r m); [assumption|].
      unfold Rdiv. rewrite Rmult_assoc, Rinv_l by lra. lra. }
  repeat split.
  - now apply shape_normalized.
  - apply field_max_unique.
    + rewrite concat_arr_scalar. apply in_map_iff. exists m. split; auto.
      apply Rdiv_diag. lra.
    + intros v Hv. now apply Hentry.
  - apply Hentry, at2_In_concat, (in_range_square _ grid_res);
      auto using shape_normalized.
  - apply Hentry, at2_In_concat, (in_range_square _ grid_res);
      auto using shape_normalized.
Qed.

Lemma normalized_field_max_is_one_witness :
  [(1%R, 2%R)] <> [] /\ (0 < 15)%R /\ (0 < 3)%nat /\
  exists ri,
    field_of_units [(1%R, 2%R)] 15%R (2 / 10)%R 3 = Ok ri /\
    field_max (ri_field ri) = Ok 1%R.
Proof.
  split; [discriminate|]. split; [lra|]. split; [lia|].
  destruct (normalized_field_max_is_one [(1%R, 2%R)] 15%R (2 / 10)%R 3
              ltac:(discriminate) ltac:(lra) ltac:(lia))
    as (ri & H1 & _ & H2 & _).
  exists ri. auto.
Defined.

(** C2, as the spec states it, fails in binary64.  One unit at the origin, a
    2 by 2 grid and the positive finite [sigma = 0.001]: every grid point is
    20 away from the unit on both axes, so the exponent of line 38 is -4e8
    at each of them, and the exponential of anything below -746 is +0.0
    ([e^-746] is less than half the least positive binary64 number).  The
    accumulated field is all zero, [field.max()] is 0.0, and line 41 leaves a
    field of NaNs, whose maximum is a NaN and not 1.0.  [sigma ** 2] does not
    overflow, so nothing is raised. *)
Lemma normalized_field_is_nan_on_underflow :
  PrimFloat.ltb 0 0.001 = true /\ PrimFloat.is_finite 0.001 = true /\
  forall fexp : float -> float,
    (forall v, PrimFloat.ltb v (-746) = true -> fexp v = 0%float) ->
    let SCf := float_scalar fexp in
    field_of_units_checked [(0%float, 0%float)] 0.001%float 0.2%float 2
    = Ok {| ri_X := [[(-20)%float; 20%float]; [(-20)%float; 20%float]];
            ri_Y := [[(-20)%float; (-20)%float]; [20%float; 20%float]];
            ri_field := [[nan; nan]; [nan; nan]];
            ri_levels := [0.2%float];
            ri_units := [(0%float, 0%float)] |} /\
    accumulate [[(-20)%float; 20%float]; [(-20)%float; 20%float]]
      [[(-20)%float; (-20)%float]; [20%float; 20%float]]
      [(0%float, 0%float)] 0.001%float
    = [[0%float; 0%float]; [0%float; 0%float]] /\
    field_max [[nan; nan]; [nan; nan]] = Ok nan /\
    PrimFloat.eqb nan 1 = false.
Proof.
  split; [reflexivity|]. split; [reflexivity|].
  intros fexp Hexp SCf. unfold SCf. clear SCf.
  assert (Hk : fexp (-400000000)%float = 0%float)
    by (apply Hexp; reflexivity).
  split; [|split; [|split; reflexivity]].
  - vm_compute. rewrite !Hk. vm_compute. reflexivity.
  - vm_compute. rewrite !Hk. vm_compute. reflexivity.
Qed.

(** C10.  In exact real arithmetic, for every collection of at least one
    unit and every positive [sigma], the accumulated field is strictly
    positive at every grid point; so whatever [field.max()] returns is
    positive, hence not zero, and on a grid of at least one sample per axis
    it does return: line 41 never divides by zero. *)
Theorem accumulated_field_positive (units : list (point R)) (sigma : R)
  (grid_res : nat) :
  units <> [] -> (0 < sigma)%R ->
  exists g,
    build_grid units margin grid_res = Ok g /\
    let field := accumulate (g_X g) (g_Y g) units sigma in
    shape field = repeat grid_res grid_res /\
    (forall i j, (i < grid_res)%nat -> (j < grid_res)%nat ->
                 (0 < at2 field i j)%R) /\
    (forall m, field_max field = Ok m -> (0 < m)%R /\ m <> 0%R) /\
    ((0 < grid_res)%nat -> exists m, field_max field = Ok m /\ (0 < m)%R).
Proof.
  intros Hne _.
  destruct (build_grid_ok units margin grid_res Hne) as (lo & hi & _ & _ & Hg).
  match type of Hg with _ = Ok ?r => set (g := r) in * end.
  exists g. split; [exact Hg|]. intros field.
  assert (HX : shape (g_X g) = repeat grid_res grid_res).
  { unfold g; cbn [g_X]. now rewrite shape_meshgrid_X, !length_linspace. }
  assert (HXY : shape (g_X g) = shape (g_Y g)).
  { unfold g; cbn [g_X g_Y]. apply shape_meshgrid. }
  assert (HA : shape field = shape (g_X g)).
  { unfold field, accumulate.
    apply shape_fold_add_unit; auto using shape_zeros_like. }
  assert (Hat : forall i j, (i < grid_res)%nat -> (j < grid_res)%nat ->
                            (0 < at2 field i j)%R).
  { intros i j Hi Hj. apply accumulate_pos; auto.
    apply (in_range_square _ grid_res); auto. }
  assert (Hpos : forall v, In v (concat field) -> (0 < v)%R).
  { intros v Hv. apply In_concat_at2 in Hv.
    destruct Hv as (i & j & Hr & <-).
    apply (in_range_square _ grid_res) in Hr; [|congruence].
    now apply Hat. }
  assert (Hmax : forall m, field_max field = Ok m -> (0 < m)%R).
  { intros m Hm.
    destruct (field_max_spec field) as (m' & E & Hin & _).
    - intros E. unfold field_max in Hm. now rewrite E in Hm.
    - rewrite Hm in E. injection E as <-. now apply Hpos. }
  repeat split; try congruence; auto.
  - intros E. specialize (Hmax m H). lra.
  - intros Hres. destruct (field_max_spec field) as (m & E & Hin & _).
    + assert (Hr : in_range field 0 0).
      { apply (in_range_square _ grid_res); [congruence | lia]. }
      apply at2_In_concat in Hr. intros E. now rewrite E in Hr.
    + exists m. auto.
Qed.

Lemma accumulated_field_positive_witness :
  [(1%R, 2%R)] <> [] /\ (0 < 15)%R /\
  exists g,
    build_grid [(1%R, 2%R)] margin 3 = Ok g /\
    (0 < at2 (accumulate (g_X g) (g_Y g) [(1%R, 2%R)] 15%R) 0 0)%R.
Proof.
  split; [discriminate|]. split; [lra|].
  destruct (accumulated_field_positive [(1%R, 2%R)] 15%R 3
              ltac:(discriminate) ltac:(lra)) as (g & Hg & _ & Hat & _).
  exists g. split; [exact Hg|]. apply Hat; lia.
Defined.

Section RealGrid.

Local Open Scope R_scope.

(** A reduction by an operator that picks one of its operands, the one
    below the other in the order [le], returns the least entry. *)
Section Selective.

Variable f : R -> R -> R.
Variable le : R -> R -> Prop.
Hypothesis f_pick : forall a b, f a b = a \/ f a b = b.
Hypothesis f_l : forall a b, le (f a b) a.
Hypothesis f_r : forall a b, le (f a b) b.
Hypothesis le_refl : forall a, le a a.
Hypothesis le_trans : forall a b c, le a b -> le b c -> le a c.

Lemma reduce_axis0_selective (proj : point R -> R) (g : point R -> point R -> point R)
  (us : list (point R)) (u : point R) :
  (forall acc p, proj (g acc p) = f (proj acc) (proj p)) ->
  let r := proj (fold_left g us u) in
  In r (map proj (u :: us)) /\ forall w, In w (map proj (u :: us)) -> le r w.
Proof.
  intros Hg. revert u. induction us as [|p us IH]; intros u; cbn [fold_left].
  - simpl. split; auto. intros w [<-|[]]. apply le_refl.
  - destruct (IH (g u p)) as [Hin Hle]. split.
    + cbn [map In] in Hin |- *. destruct Hin as [E|Hin]; auto.
      rewrite <- E, Hg. destruct (f_pick (proj u) (proj p)) as [->| ->]; auto.
    + intros w Hw. cbn [map In] in Hw, Hle.
      assert (H0 : le (proj (fold_left g us (g u p))) (proj (g u p)))
        by (apply Hle; auto).
      rewrite Hg in H0.
      destruct Hw as [<-|[<-|Hw]].
      * eapply le_trans; [exact H0 | apply f_l].
      * eapply le_trans; [exact H0 | apply f_r].
      * apply Hle. auto.
Qed.

End Selective.

Lemma Rmin_pick (a b : R) : Rmin a b = a \/ Rmin a b = b.
Proof. unfold Rmin. destruct (Rle_dec a b); auto. Qed.

Lemma Rmax_pick (a b : R) : Rmax a b = a \/ Rmax a b = b.
Proof. unfold Rmax. destruct (Rle_dec a b); auto. Qed.

(** [units.min(axis=0)] and [units.max(axis=0)] are the per-axis minimum
    and maximum of the coordinates. *)
Lemma units_min_spec (units : list (point R)) :
  units <> [] ->
  exists lo, units_min units = Ok lo /\
    is_min_of (map fst units) (fst lo) /\ is_min_of (map snd units) (snd lo).
Proof.
  destruct units as [|u us]; [congruence|]. intros _.
  eexists; split; [reflexivity|]. split.
  - apply (reduce_axis0_selective Rmin Rle Rmin_pick Rmin_l Rmin_r
             Rle_refl Rle_trans fst). reflexivity.
  - apply (reduce_axis0_selective Rmin Rle Rmin_pick Rmin_l Rmin_r
             Rle_refl Rle_trans snd). reflexivity.
Qed.

Lemma units_max_spec (units : list (point R)) :
  units <> [] ->
  exists hi, units_max units = Ok hi /\
    is_max_of (map fst units) (fst hi) /\ is_max_of (map snd units) (snd hi).
Proof.
  destruct units as [|u us]; [congruence|]. intros _.
  eexists; split; [reflexivity|].
  assert (Hl : forall a b, Rmax a b >= a) by (intros; apply Rle_ge, Rmax_l).
  assert (Hr : forall a b, Rmax a b >= b) by (intros; apply Rle_ge, Rmax_r).
  split.
  - destruct (reduce_axis0_selective Rmax Rge Rmax_pick Hl Hr
                Rge_refl Rge_trans fst
                (fun acc p => (Rmax (fst acc) (fst p), Rmax (snd acc) (snd p)))
                us u ltac:(reflexivity)) as [Hin Hge].
    split; [exact Hin|]. intros w Hw. apply Rge_le, Hge, Hw.
  - destruct (reduce_axis0_selective Rmax Rge Rmax_pick Hl Hr
                Rge_refl Rge_trans snd
                (fun acc p => (Rmax (fst acc) (fst p), Rmax (snd acc) (snd p)))
                us u ltac:(reflexivity)) as [Hin Hge].
    split; [exact Hin|]. intros w Hw. apply Rge_le, Hge, Hw.
Qed.

(** The samples of [np.linspace] in closed form, from two samples on. *)
Lemma linspace_nth_R (a b : R) (n i : nat) :
  (2 <= n)%nat -> (i < n)%nat ->
  nth i (linspace a b n) 0 = a + INR i * ((b - a) / (INR n - 1)).
Proof.
  intros Hn Hi.
  assert (Hd : INR n - 1 <> 0).
  { apply (le_INR 2 n) in Hn. simpl in Hn. lra. }
  assert (HZ : IZR (Z.of_nat n - 1) = INR n - 1).
  { rewrite minus_IZR, <- INR_IZR_INZ. reflexivity. }
  unfold linspace.
  destruct (Nat.ltb_spec 1 n) as [_|]; [|lia].
  destruct (Z.ltb_spec 0 (Z.of_nat n - 1)) as [_|]; [|lia].
  set (idx := map (fun k => s_of_Z (Z.of_nat k)) (seq 0 n)).
  assert (Hidx : length idx = n) by (unfold idx; now rewrite length_map, length_seq).
  assert (Hnth : forall k, (k < n)%nat -> nth k idx 0 = INR k).
  { intros k Hk. unfold idx.
    rewrite (nth_map_lt _ (seq 0 n) k 0%nat) by (now rewrite length_seq).
    rewrite seq_nth by assumption. simpl. now rewrite <- INR_IZR_INZ. }
  assert (Hbody : forall l : list R, length l = n ->
            (forall k, (k < n - 1)%nat ->
               nth k l 0 = INR k * ((b - a) / (INR n - 1))) ->
            nth i (removelast (map (fun v => s_add v a) l) ++ [b]) 0
            = a + INR i * ((b - a) / (INR n - 1))).
  { intros l Hl Hk. rewrite nth_set_last by (rewrite length_map; lia).
    rewrite length_map, Hl.
    destruct (Nat.eqb_spec i (n - 1)) as [->|Hne].
    - rewrite minus_INR by lia. simpl. field. exact Hd.
    - destruct (Nat.ltb_spec i (n - 1)) as [Hlt|]; [|lia].
      rewrite (nth_map_lt _ l i 0) by lia. rewrite Hk by assumption.
      simpl. lra. }
  destruct (s_eqb _ _); apply Hbody;
    try (now rewrite length_map); intros k Hk.
  - rewrite (nth_map_lt _ idx k 0) by lia. rewrite Hnth by lia.
    simpl. rewrite HZ. field. exact Hd.
  - rewrite (nth_map_lt _ idx k 0) by lia. rewrite Hnth by lia.
    simpl. now rewrite HZ.
Qed.

Lemma last_nth_pred {A} (l : list A) (d : A) :
  last l d = nth (length l - 1) l d.
Proof.
  induction l as [|a [|b l] IH]; auto.
  change (last (a :: b :: l) d) with (last (b :: l) d). rewrite IH.
  cbn [length]. now rewrite !Nat.sub_succ, !Nat.sub_0_r.
Qed.

Lemma linspace_one_R (a b : R) : linspace a b 1 = [a].
Proof. rewrite linspace_first_one. simpl. f_equal. lra. Qed.

Lemma linspace_first_R (a b : R) (n : nat) :
  (1 <= n)%nat -> nth 0 (linspace a b n) 0 = a.
Proof.
  intros Hn. destruct (Nat.eq_dec n 1) as [->|Hne].
  - now rewrite linspace_one_R.
  - rewrite linspace_nth_R by lia. simpl. lra.
Qed.

End RealGrid.

(** C3, as the code has it.  In exact real arithmetic, for every non-empty
    unit collection and every [grid_res >= 1], the bounds of the grid are the
    per-axis minimum of the units minus the margin and the per-axis maximum
    plus the margin, each axis carries [grid_res] samples and the first one
    is the lower bound.  From two samples on, sample [i] is
    [lower + i * (upper - lower) / (grid_res - 1)], so the samples are evenly
    spaced and the last one is the upper bound; with [grid_res = 1] the only
    sample is the lower bound. *)
Theorem grid_bounds_and_axes (units : list (point R)) (m : R) (grid_res : nat) :
  units <> [] -> (1 <= grid_res)%nat ->
  exists lo hi g,
    build_grid units m grid_res = Ok g /\
    is_min_of (map fst units) (fst lo) /\ is_min_of (map snd units) (snd lo) /\
    is_max_of (map fst units) (fst hi) /\ is_max_of (map snd units) (snd hi) /\
    (g_xmin g = fst lo - m /\ g_ymin g = snd lo - m /\
     g_xmax g = fst hi + m /\ g_ymax g = snd hi + m)%R /\
    length (g_x g) = grid_res /\ length (g_y g) = grid_res /\
    nth 0 (g_x g) 0%R = g_xmin g /\ nth 0 (g_y g) 0%R = g_ymin g /\
    ((2 <= grid_res)%nat ->
       (forall i, (i < grid_res)%nat ->
          nth i (g_x g) 0 = g_xmin g
            + INR i * ((g_xmax g - g_xmin g) / (INR grid_res - 1)) /\
          nth i (g_y g) 0 = g_ymin g
            + INR i * ((g_ymax g - g_ymin g) / (INR grid_res - 1)))%R /\
       last (g_x g) 0%R = g_xmax g /\ last (g_y g) 0%R = g_ymax g) /\
    (grid_res = 1%nat -> g_x g = [g_xmin g] /\ g_y g = [g_ymin g]).
Proof.
  intros Hne Hres.
  destruct (units_min_spec units Hne) as (lo & Hlo & Hlox & Hloy).
  destruct (units_max_spec units Hne) as (hi & Hhi & Hhix & Hhiy).
  destruct (build_grid_ok units m grid_res Hne) as (lo' & hi' & Hlo' & Hhi' & Hg).
  rewrite Hlo in Hlo'. rewrite Hhi in Hhi'.
  injection Hlo' as <-. injection Hhi' as <-.
  exists lo, hi. eexists. split; [exact Hg|].
  cbn [g_x g_y g_xmin g_ymin g_xmax g_ymax]. simpl s_sub. simpl s_add.
  assert (Hlast : forall a b, (2 <= grid_res)%nat ->
                    last (linspace a b grid_res) 0%R = b).
  { intros a b H2.
    rewrite last_nth_pred, length_linspace.
    exact (linspace_last a b grid_res H2). }
  split; [exact Hlox|]. split; [exact Hloy|].
  split; [exact Hhix|]. split; [exact Hhiy|].
  split; [now repeat split|].
  split; [apply length_linspace|]. split; [apply length_linspace|].
  split; [now apply linspace_first_R|]. split; [now apply linspace_first_R|].
  split.
  - intros H2. split; [|split; now apply Hlast].
    intros i Hi. split; now apply linspace_nth_R.
  - intros ->. split; apply linspace_one_R.
Qed.

Lemma grid_bounds_and_axes_witness :
  [(1%R, 2%R)] <> [] /\ (1 <= 300)%nat /\
  exists g, build_grid [(1%R, 2%R)] margin 300 = Ok g /\
            length (g_x g) = 300%nat /\ last (g_x g) 0%R = g_xmax g.
Proof.
  split; [discriminate|]. split; [lia|].
  destruct (grid_bounds_and_axes [(1%R, 2%R)] margin 300
              ltac:(discriminate) ltac:(lia))
    as (lo & hi & g & Hg & _ & _ & _ & _ & _ & Hx & _ & _ & _ & H2 & _).
  exists g. repeat split; auto. apply H2. lia.
Defined.

(** C3, as the spec states it, fails at [grid_res = 1]: the single sample of
    an axis is its lower bound, so the last sample is not the upper bound. *)
Lemma grid_res_one_misses_upper_bound :
  exists g, build_grid [(0%R, 0%R)] margin 1 = Ok g /\
            g_xmin g = (-20)%R /\ g_xmax g = 20%R /\
            length (g_x g) = 1%nat /\
            last (g_x g) 0%R = (-20)%R /\ last (g_x g) 0%R <> g_xmax g.
Proof.
  eexists. split; [reflexivity|].
  cbn [g_xmin g_xmax g_x fst snd]. rewrite linspace_one_R.
  simpl. repeat split; try lra.
Qed.

(** * The single-unit scenario: one cluster of one unit, [sigma = 15],
      [grid_res = 10] *)

Section SingleUnit.

Local Open Scope R_scope.

Lemma exp_le_mono (a b : R) : a <= b -> exp a <= exp b.
Proof.
  intros [H| ->]; [apply Rlt_le, exp_increasing, H | apply Rle_refl].
Qed.

(** No sample index is at the centre of a ten-sample axis. *)
Lemma off_centre (j : nat) : 1 <= (2 * INR j - 9) * (2 * INR j - 9).
Proof.
  rewrite INR_IZR_INZ.
  replace ((2 * IZR (Z.of_nat j) - 9) * (2 * IZR (Z.of_nat j) - 9))
    with (IZR ((2 * Z.of_nat j - 9) * (2 * Z.of_nat j - 9))).
  - apply IZR_le.
    assert (H : (2 * Z.of_nat j - 9 <= -1 \/ 1 <= 2 * Z.of_nat j - 9)%Z) by lia.
    destruct H; nia.
  - rewrite mult_IZR, minus_IZR, mult_IZR. reflexivity.
Qed.

(** The offset of sample [j] from a unit in the middle of its own axis. *)
Lemma single_axis_offset (c : R) (j : nat) :
  (j < 10)%nat ->
  nth j (linspace (c - 20) (c + 20) 10) 0 - c = 20 / 9 * (2 * INR j - 9).
Proof.
  intros Hj. rewrite linspace_nth_R by lia.
  replace (INR 10) with 10 by (simpl; lra). field.
Qed.

(** The kernel of the single unit [u] at cell [(i, j)] of its own grid. *)
Lemma single_kernel (u : point R) (i j : nat) :
  (i < 10)%nat -> (j < 10)%nat ->
  kernel 15 (nth j (linspace (fst u - 20) (fst u + 20) 10) 0)
            (nth i (linspace (snd u - 20) (snd u + 20) 10) 0) u
  = exp (- (8 / 729) * ((2 * INR j - 9) * (2 * INR j - 9)
                        + (2 * INR i - 9) * (2 * INR i - 9))).
Proof.
  intros Hi Hj. unfold kernel, sq. cbn [s_sub s_exp s_div s_opp s_add s_mul
    s_of_Z real_scalar].
  rewrite (single_axis_offset (fst u) j Hj), (single_axis_offset (snd u) i Hi).
  f_equal. field.
Qed.

Lemma single_kernel_le (i j : nat) :
  exp (- (8 / 729) * ((2 * INR j - 9) * (2 * INR j - 9)
                      + (2 * INR i - 9) * (2 * INR i - 9)))
  <= exp (- (16 / 729)).
Proof.
  apply exp_le_mono.
  pose proof (off_centre i). pose proof (off_centre j). lra.
Qed.

Lemma exp_neg_lt_1 (a : R) : 0 < a -> exp (- a) < 1.
Proof.
  intros Ha. rewrite <- exp_0. apply exp_increasing. lra.
Qed.

End SingleUnit.

Section ScriptFacts.

Context {T : Type} {SC : Scalar T} {G : Type} {RS : RandomSource G T}.

Lemma pipeline_result (nc upc : nat) (sigma threshold : T) (grid_res : nat) (g : G) :
  fst (pipeline nc upc sigma threshold grid_res g)
  = rbind (fst (generate_units nc upc g))
          (fun units => field_of_units units sigma threshold grid_res).
Proof.
  unfold pipeline, bind, ret.
  destruct (generate_units nc upc g) as [r g']. reflexivity.
Qed.

(** One cluster of one unit: the collection is a single point. *)
Lemma generate_single_unit (g : G) :
  exists u, fst (generate_units 1 1 g) = Ok [u].
Proof.
  destruct (generate_clusters_spec 1 1 g) as (Hlen & Hall & Hgen).
  rewrite Hgen.
  destruct (Forall2_cluster_lengths _ _ _ Hall) as [Hcl Hk].
  destruct (fst (generate_clusters 1 1 g)) as [|c [|c' cs]];
    rewrite Hlen in Hcl; simpl in Hcl; try lia.
  inversion Hk as [|? ? Hc _]; subst.
  destruct c as [|u [|u' c]]; simpl in Hc; try lia.
  exists u. reflexivity.
Qed.

End ScriptFacts.

Section SingleUnitField.

Local Open Scope R_scope.

(** Lines 24-41 on the single unit [u]: the field is the kernel of [u]
    divided by its largest value on the grid, [exp (-16/729)], which it takes
    at the cells next to the unit and which is below 1. *)
Lemma field_of_single_unit (u : point R) :
  exists ri,
    field_of_units [u] 15 (2 / 10) 10 = Ok ri /\
    ri_units ri = [u] /\ ri_levels ri = [2 / 10] /\
    shape (ri_field ri) = repeat 10%nat 10%nat /\
    field_max (accumulate (ri_X ri) (ri_Y ri) [u] 15) = Ok (exp (- (16 / 729))) /\
    field_max (ri_field ri) = Ok 1 /\
    forall i j, (i < 10)%nat -> (j < 10)%nat ->
      kernel 15 (at2 (ri_X ri) i j) (at2 (ri_Y ri) i j) u
      = exp (- (8 / 729) * ((2 * INR j - 9) * (2 * INR j - 9)
                            + (2 * INR i - 9) * (2 * INR i - 9))) /\
      at2 (ri_field ri) i j
      = kernel 15 (at2 (ri_X ri) i j) (at2 (ri_Y ri) i j) u / exp (- (16 / 729)).
Proof.
  destruct (field_of_units_ok [u] 15 (2 / 10) 10) as
    (g & m & Hg & HX & HXY & Hmax & Hin & Hb & Hf); [discriminate | lia |].
  destruct (build_grid_ok [u] margin 10) as (lo & hi & Hlo & Hhi & Hg');
    [discriminate|].
  injection Hlo as <-. injection Hhi as <-.
  rewrite Hg in Hg'. injection Hg' as Eg.
  set (A := accumulate (g_X g) (g_Y g) [u] 15) in *.
  assert (HA : shape A = repeat 10%nat 10%nat).
  { rewrite <- HX. unfold A, accumulate.
    apply shape_fold_add_unit; auto using shape_zeros_like. }
  (* the kernel at every cell *)
  assert (Hk : forall i j, (i < 10)%nat -> (j < 10)%nat ->
             kernel 15 (at2 (g_X g) i j) (at2 (g_Y g) i j) u
             = exp (- (8 / 729) * ((2 * INR j - 9) * (2 * INR j - 9)
                                   + (2 * INR i - 9) * (2 * INR i - 9)))).
  { intros i j Hi Hj. rewrite Eg. cbn [g_X g_Y].
    pose proof (meshgrid_at2 (linspace (fst u - 20) (fst u + 20) 10)
                  (linspace (snd u - 20) (snd u + 20) 10) i j) as Hmesh.
    unfold meshgrid in Hmesh; cbn [fst snd] in Hmesh.
    destruct Hmesh as [EX EY]; try (rewrite length_linspace; lia).
    rewrite EX, EY. apply (single_kernel u i j Hi Hj). }
  (* the accumulated field is that kernel *)
  assert (Hacc : forall i j, (i < 10)%nat -> (j < 10)%nat ->
             at2 A i j = kernel 15 (at2 (g_X g) i j) (at2 (g_Y g) i j) u).
  { intros i j Hi Hj. unfold A, accumulate.
    assert (Hr : in_range (g_X g) i j)
      by (apply (in_range_square _ 10%nat); auto).
    rewrite at2_fold_add_unit, at2_zeros_like; auto using shape_zeros_like.
    simpl. lra. }
  (* its maximum *)
  assert (Hm : m = exp (- (16 / 729))).
  { apply Rle_antisym.
    - apply In_concat_at2 in Hin. destruct Hin as (i & j & Hr & <-).
      apply (in_range_square _ 10%nat) in Hr; [|exact HA].
      destruct Hr as [Hi Hj]. rewrite Hacc, Hk by assumption.
      apply single_kernel_le.
    - assert (H44 : at2 A 4 4 = exp (- (16 / 729))).
      { rewrite Hacc, Hk by lia. f_equal. simpl. lra. }
      rewrite <- H44. apply Hb, at2_In_concat.
      apply (in_range_square _ 10%nat); [exact HA | lia]. }
  subst m.
  eexists. split; [exact Hf|]. cbn [ri_units ri_levels ri_field ri_X ri_Y].
  fold A.
  assert (HN : shape (arr_scalar Rdiv A (exp (- (16 / 729))))
               = repeat 10%nat 10%nat) by now apply shape_normalized.
  split; [reflexivity|]. split; [reflexivity|]. split; [exact HN|].
  split; [exact Hmax|]. split.
  - apply field_max_unique.
    + rewrite concat_arr_scalar. apply in_map_iff.
      exists (exp (- (16 / 729))). split; auto.
      apply Rdiv_diag. apply Rgt_not_eq, exp_pos.
    + intros v Hv. rewrite concat_arr_scalar in Hv.
      apply in_map_iff in Hv. destruct Hv as (a & <- & Ha).
      destruct (Hb a Ha) as [H0 H1].
      apply (Rmult_le_reg_r (exp (- (16 / 729)))); [apply exp_pos|].
      unfold Rdiv. rewrite Rmult_assoc, Rinv_l by (apply Rgt_not_eq, exp_pos).
      lra.
  - intros i j Hi Hj. split; [now apply Hk|].
    rewrite at2_arr_scalar by (apply (in_range_square _ 10%nat); auto).
    now rewrite Hacc.
Qed.

End SingleUnitField.

(** C9, as the code has it.  With one cluster of one unit, [sigma = 15],
    [threshold = 0.2] and [grid_res = 10], from any state of the random
    source and in exact real arithmetic, the script returns a 10 by 10 field
    that is the unit's Gaussian kernel [exp (- d^2 / (2 * 15^2))] divided by
    the kernel's largest value on the grid.  The unit lies midway between
    the samples of its axes, so that value is [exp (-16/729)], below 1, taken
    at the four cells around the unit: the field is the kernel scaled up by a
    constant, strictly above the kernel at every cell, and its maximum is
    exactly 1, at those four cells. *)
Theorem single_unit_scenario {G : Type} {RS : RandomSource G R} (g : G) :
  exists u ri,
    fst (pipeline 1 1 15%R (2 / 10)%R 10 g) = Ok ri /\
    ri_units ri = [u] /\ ri_levels ri = [(2 / 10)%R] /\
    shape (ri_field ri) = repeat 10%nat 10%nat /\
    field_max (accumulate (ri_X ri) (ri_Y ri) [u] 15%R)
    = Ok (exp (- (16 / 729))) /\
    field_max (ri_field ri) = Ok 1%R /\
    (exp (- (16 / 729)) < 1)%R /\
    (at2 (ri_field ri) 4 4 = 1 /\ at2 (ri_field ri) 4 5 = 1 /\
     at2 (ri_field ri) 5 4 = 1 /\ at2 (ri_field ri) 5 5 = 1)%R /\
    forall i j, (i < 10)%nat -> (j < 10)%nat ->
      let k := exp (- ((at2 (ri_X ri) i j - fst u) * (at2 (ri_X ri) i j - fst u)
                       + (at2 (ri_Y ri) i j - snd u) * (at2 (ri_Y ri) i j - snd u))
                    / (2 * (15 * 15)))%R in
      (at2 (ri_field ri) i j = k / exp (- (16 / 729)) /\
       k < at2 (ri_field ri) i j)%R.
Proof.
  destruct (generate_single_unit g) as [u Hu].
  destruct (field_of_single_unit u)
    as (ri & Hri & Hun & Hlv & Hsh & Hraw & Hmax & Hcell).
  exists u, ri. rewrite pipeline_result, Hu. cbn [rbind].
  assert (Hlt : (exp (- (16 / 729)) < 1)%R) by (apply exp_neg_lt_1; lra).
  assert (H1 : forall i j, (i < 10)%nat -> (j < 10)%nat ->
             ((2 * INR j - 9) * (2 * INR j - 9)
              + (2 * INR i - 9) * (2 * INR i - 9) = 2)%R ->
             at2 (ri_field ri) i j = 1%R).
  { intros i j Hi Hj E. destruct (Hcell i j Hi Hj) as [Ek ->].
    rewrite Ek, E. replace (- (8 / 729) * 2)%R with (- (16 / 729))%R by lra.
    apply Rdiv_diag, Rgt_not_eq, exp_pos. }
  split; [exact Hri|]. split; [exact Hun|]. split; [exact Hlv|].
  split; [exact Hsh|]. split; [exact Hraw|]. split; [exact Hmax|].
  split; [exact Hlt|].
  split; [repeat split; apply H1; try lia; simpl; lra|].
  intros i j Hi Hj. destruct (Hcell i j Hi Hj) as [_ Ef].
  split; [exact Ef|]. rewrite Ef.
  change (exp _) with (kernel 15%R (at2 (ri_X ri) i j) (at2 (ri_Y ri) i j) u)
    at 1.
  pose proof (kernel_pos 15%R (at2 (ri_X ri) i j) (at2 (ri_Y ri) i j) u) as Hk.
  pose proof (exp_pos (- (16 / 729))) as He.
  apply (Rmult_lt_reg_r (exp (- (16 / 729)))); [exact He|].
  unfold Rdiv. rewrite Rmult_assoc, Rinv_l by lra. nra.
Qed.

(** C9, as the spec states it, fails: the normalised field is not the kernel
    itself.  On the tape of all-zero draws the unit is [(-50, -50)]; at cell
    [(4, 4)] the field is 1 and the kernel is [exp (-16/729)]. *)
Lemma single_unit_field_is_not_the_kernel :
  exists ri,
    fst (pipeline (RS := tape_source (fun _ => [])) 1 1 15%R (2 / 10)%R 10 [])
    = Ok ri /\
    ri_units ri = [((-50)%R, (-50)%R)] /\
    at2 (ri_field ri) 4 4 = 1%R /\
    kernel 15%R (at2 (ri_X ri) 4 4) (at2 (ri_Y ri) 4 4) ((-50)%R, (-50)%R)
    = exp (- (16 / 729)) /\
    at2 (ri_field ri) 4 4
    <> kernel 15%R (at2 (ri_X ri) 4 4) (at2 (ri_Y ri) 4 4) ((-50)%R, (-50)%R).
Proof.
  destruct (field_of_single_unit ((-50)%R, (-50)%R))
    as (ri & Hri & Hun & _ & _ & _ & _ & Hcell).
  exists ri. rewrite pipeline_result.
  assert (Hu : fst (generate_units (RS := tape_source (fun _ => [])) 1 1 [])
               = Ok [((-50)%R, (-50)%R)]).
  { cbv [generate_units generate_clusters cluster_centers make_clusters
         make_cluster draw_rows bind ret fst snd tape_source rs_uniform
         rs_normal next_draw vstack concat add_center map app].
    do 2 f_equal. simpl. f_equal; lra. }
  rewrite Hu. cbn [rbind].
  destruct (Hcell 4%nat 4%nat ltac:(lia) ltac:(lia)) as [Ek Ef].
  assert (Ek' : kernel 15%R (at2 (ri_X ri) 4 4) (at2 (ri_Y ri) 4 4)
                  ((-50)%R, (-50)%R) = exp (- (16 / 729))).
  { rewrite Ek. f_equal. simpl. lra. }
  pose proof (exp_pos (- (16 / 729))) as He.
  assert (Hlt : (exp (- (16 / 729)) < 1)%R) by (apply exp_neg_lt_1; lra).
  assert (E1 : at2 (ri_field ri) 4 4 = 1%R).
  { rewrite Ef, Ek'. apply Rdiv_diag. lra. }
  repeat split; auto. rewrite E1, Ek'. lra.
Qed.

(** * Binary64: the all-zero field *)

Section ZeroField.

Variable fexp : float -> float.

Let SCf : Scalar float := float_scalar fexp.
Existing Instance SCf.

Lemma concat_arr_map (f : float -> float) (A : array2 float) :
  concat (arr_map f A) = map f (concat A).
Proof.
  unfold arr_map. induction A as [|row A IH]; simpl; auto.
  now rewrite map_app, IH.
Qed.

Lemma arr_map_ext_in (f h : float -> float) (A : array2 float) :
  (forall v, In v (concat A) -> f v = h v) -> arr_map f A = arr_map h A.
Proof.
  intros H. unfold arr_map. apply map_ext_in. intros row Hrow.
  apply map_ext_in. intros v Hv. apply H, in_concat. eauto.
Qed.

Lemma fold_maximum_zero (vs : list float) :
  (forall v, In v vs -> v = 0%float) ->
  fold_left float_maximum vs 0%float = 0%float.
Proof.
  induction vs as [|v vs IH]; intros H; simpl; auto.
  rewrite (H v) by (simpl; auto).
  change (float_maximum 0 0) with 0%float. apply IH.
  intros w Hw. apply H. simpl; auto.
Qed.

(** [field.max()] of a field of zeros is zero, and line 41 then divides
    every entry by it: the result, returned and not raised, is the field of
    NaNs of the same shape. *)
Lemma normalize_zero_field (field : array2 float) :
  concat field <> [] -> (forall v, In v (concat field) -> v = 0%float) ->
  field_max field = Ok 0%float /\
  normalize field = Ok (arr_map (fun _ => nan) field).
Proof.
  intros Hne Hz.
  assert (Hmax : field_max field = Ok 0%float).
  { unfold field_max. destruct (concat field) as [|v vs]; [congruence|].
    rewrite (Hz v) by (simpl; auto). f_equal.
    apply fold_maximum_zero. intros w Hw. apply Hz. simpl; auto. }
  split; [exact Hmax|].
  unfold normalize. rewrite Hmax. cbn [rbind]. f_equal.
  apply (arr_map_ext_in (fun a => s_div a 0%float) (fun _ => nan)).
  intros v Hv. rewrite (Hz v Hv). reflexivity.
Qed.

Lemma zeros_like_all_zero (X : array2 float) (v : float) :
  In v (concat (zeros_like X)) -> v = 0%float.
Proof.
  unfold zeros_like. rewrite concat_arr_map. intros H.
  apply in_map_iff in H. destruct H as (a & <- & _). reflexivity.
Qed.

Lemma zeros_like_nonempty (X : array2 float) :
  concat X <> [] -> concat (zeros_like X) <> [].
Proof.
  unfold zeros_like. rewrite concat_arr_map.
  destruct (concat X); [congruence | discriminate].
Qed.

Lemma arr_map_const_twice (a b : float) (X : array2 float) :
  arr_map (fun _ => a) (arr_map (fun _ => b) X) = arr_map (fun _ => a) X.
Proof.
  unfold arr_map. rewrite map_map. apply map_ext. intros row.
  now rewrite map_map.
Qed.

End ZeroField.

(** C6.  In binary64, whatever the exponential: when the accumulated field
    has an entry and is identically zero, [field.max()] is 0, line 41 divides
    every entry by it and returns, without raising, the field of NaNs of the
    same shape.  That is what the field evaluator returns on a grid with no
    units, and when it happens in the script the NaN field is the [field] the
    renderer is handed. *)
Theorem zero_field_normalizes_to_nan (fexp : float -> float)
  (field : array2 float) :
  concat field <> [] -> (forall v, In v (concat field) -> v = 0%float) ->
  let SCf := float_scalar fexp in
  field_max field = Ok 0%float /\
  normalize field = Ok (arr_map (fun _ => nan) field) /\
  shape (arr_map (fun _ => nan) field) = shape field /\
  (forall v, In v (concat (arr_map (fun _ => nan) field)) ->
             PrimFloat.is_nan v = true) /\
  (forall X Y sigma, concat X <> [] ->
     accumulate X Y [] sigma = zeros_like X /\
     evaluate_field X Y [] sigma = Ok (arr_map (fun _ => nan) X)) /\
  (forall units sigma threshold grid_res g,
     build_grid units margin grid_res = Ok g ->
     accumulate (g_X g) (g_Y g) units sigma = field ->
     field_of_units units sigma threshold grid_res
     = Ok {| ri_X := g_X g; ri_Y := g_Y g;
             ri_field := arr_map (fun _ => nan) field;
             ri_levels := [threshold]; ri_units := units |}).
Proof.
  intros Hne Hz SCf. unfold SCf. clear SCf.
  destruct (normalize_zero_field fexp field Hne Hz) as [Hmax Hnorm].
  split; [exact Hmax|]. split; [exact Hnorm|].
  split; [apply shape_arr_map|]. split; [|split].
  - intros v Hv. rewrite concat_arr_map in Hv.
    apply in_map_iff in Hv. destruct Hv as (a & <- & _). reflexivity.
  - intros X Y sigma HX. split; [reflexivity|].
    unfold evaluate_field, accumulate. cbn [fold_left].
    destruct (normalize_zero_field fexp
                (zeros_like (SC := float_scalar fexp) X)) as [_ E].
    + now apply zeros_like_nonempty.
    + apply zeros_like_all_zero.
    + rewrite E. unfold zeros_like. now rewrite arr_map_const_twice.
  - intros units sigma threshold grid_res g Hg Hacc.
    unfold field_of_units. rewrite Hg. cbn [rbind].
    unfold evaluate_field. rewrite Hacc, Hnorm. reflexivity.
Qed.

Lemma zero_field_normalizes_to_nan_witness :
  concat [[0%float; 0%float]; [0%float; 0%float]] <> [] /\
  (forall v, In v (concat [[0%float; 0%float]; [0%float; 0%float]]) ->
             v = 0%float) /\
  normalize (SC := float_scalar (fun v => v))
    [[0%float; 0%float]; [0%float; 0%float]]
  = Ok [[nan; nan]; [nan; nan]].
Proof.
  assert (Hz : forall v, In v (concat [[0%float; 0%float]; [0%float; 0%float]])
                         -> v = 0%float).
  { simpl. intros v H. repeat (destruct H as [H|H]; [now symmetry|]).
    contradiction. }
  split; [discriminate|]. split; [exact Hz|].
  apply (zero_field_normalizes_to_nan (fun v => v)
           [[0%float; 0%float]; [0%float; 0%float]] ltac:(discriminate) Hz).
Defined.

(** * Beyond the claims: when the script reaches the renderer *)

Section ScriptEdges.

Context {T : Type} {SC : Scalar T}.

Lemma shape_nil_inv (A : array2 T) : shape A = [] -> A = [].
Proof. destruct A; [reflexivity | discriminate]. Qed.

Lemma concat_nonempty_square (A : array2 T) (n : nat) :
  shape A = repeat n n -> (0 < n)%nat -> concat A <> [].
Proof.
  intros HA Hn.
  assert (Hr : in_range A 0 0) by (apply (in_range_square A n); [exact HA | lia]).
  apply at2_In_concat in Hr. intros E. now rewrite E in Hr.
Qed.

Lemma build_grid_inv (units : list (point T)) (m : T) (grid_res : nat) (g : grid T) :
  build_grid units m grid_res = Ok g ->
  units <> [] /\
  length (g_x g) = grid_res /\ length (g_y g) = grid_res /\
  g_x g = linspace (g_xmin g) (g_xmax g) grid_res /\
  g_y g = linspace (g_ymin g) (g_ymax g) grid_res /\
  g_X g = fst (meshgrid (g_x g) (g_y g)) /\
  g_Y g = snd (meshgrid (g_x g) (g_y g)).
Proof.
  intros Hg. destruct units as [|u us]; [discriminate Hg|].
  split; [discriminate|].
  destruct (build_grid_ok (u :: us) m grid_res) as (lo & hi & _ & _ & E);
    [discriminate|].
  rewrite Hg in E. injection E as ->. cbn [g_x g_y g_X g_Y g_xmin g_xmax g_ymin g_ymax].
  repeat split; auto using length_linspace.
Qed.

Lemma build_grid_shapes (units : list (point T)) (m : T) (grid_res : nat) (g : grid T) :
  build_grid units m grid_res = Ok g ->
  shape (g_X g) = repeat grid_res grid_res /\
  shape (g_Y g) = repeat grid_res grid_res.
Proof.
  intros Hg.
  destruct (build_grid_inv units m grid_res g Hg)
    as (_ & Hx & Hy & _ & _ & EX & EY).
  assert (HX : shape (g_X g) = repeat grid_res grid_res)
    by (rewrite EX, shape_meshgrid_X; congruence).
  split; [exact HX|]. now rewrite EY, <- shape_meshgrid, <- EX.
Qed.

Lemma shape_accumulate (X Y : array2 T) (units : list (point T)) (sigma : T) :
  shape X = shape Y -> shape (accumulate X Y units sigma) = shape X.
Proof.
  intros H. unfold accumulate.
  apply shape_fold_add_unit; auto using shape_zeros_like.
Qed.

(** Lines 24-41 on a unit collection, in any arithmetic: they raise exactly
    on an empty collection and on an empty grid. *)
Lemma field_of_units_returns (units : list (point T)) (sigma threshold : T)
  (grid_res : nat) :
  units <> [] -> (0 < grid_res)%nat ->
  exists g m,
    build_grid units margin grid_res = Ok g /\
    field_max (accumulate (g_X g) (g_Y g) units sigma) = Ok m /\
    field_of_units units sigma threshold grid_res
    = Ok {| ri_X := g_X g; ri_Y := g_Y g;
            ri_field := arr_scalar s_div
                          (accumulate (g_X g) (g_Y g) units sigma) m;
            ri_levels := [threshold]; ri_units := units |}.
Proof.
  intros Hne Hres.
  destruct (build_grid_ok units margin grid_res Hne) as (lo & hi & _ & _ & Hg).
  match type of Hg with _ = Ok ?r => set (g := r) in * end.
  destruct (build_grid_shapes units margin grid_res g Hg) as [HX HY].
  set (A := accumulate (g_X g) (g_Y g) units sigma).
  assert (HA : shape A = repeat grid_res grid_res).
  { unfold A. rewrite shape_accumulate; congruence. }
  pose proof (concat_nonempty_square A grid_res HA Hres) as Hcat.
  assert (Hmax : exists m, field_max A = Ok m).
  { unfold field_max. destruct (concat A); [congruence | eauto]. }
  destruct Hmax as [m Hm]. exists g, m. repeat split; auto.
  unfold field_of_units. rewrite Hg. cbn [rbind].
  unfold evaluate_field, normalize. fold A. rewrite Hm. reflexivity.
Qed.

Lemma field_of_units_empty_grid (units : list (point T)) (sigma threshold : T) :
  units <> [] -> field_of_units units sigma threshold 0 = Raise ValueError.
Proof.
  intros Hne.
  destruct (build_grid_ok units margin 0 Hne) as (lo & hi & _ & _ & Hg).
  unfold field_of_units. rewrite Hg. cbn [rbind g_X g_Y].
  unfold evaluate_field, normalize.
  match goal with |- context [accumulate ?X ?Y units sigma] =>
    assert (E : accumulate X Y units sigma = []) end.
  { apply shape_nil_inv. rewrite shape_accumulate by apply shape_meshgrid.
    reflexivity. }
  rewrite E. reflexivity.
Qed.

Context {G : Type} {RS : RandomSource G T}.

Lemma generate_units_positive (nc upc : nat) (g : G) :
  (0 < nc)%nat ->
  exists units, fst (generate_units nc upc g) = Ok units /\
                length units = (nc * upc)%nat.
Proof.
  intros Hnc.
  destruct (generate_clusters_spec nc upc g) as (Hlen & Hall & Hgen).
  destruct (Forall2_cluster_lengths _ _ _ Hall) as [Hcl Hk].
  set (clusters := fst (generate_clusters nc upc g)) in *.
  exists (concat clusters). rewrite Hgen. split.
  - unfold vstack. destruct clusters; [simpl in Hcl; lia | reflexivity].
  - rewrite (length_concat_uniform upc) by assumption. lia.
Qed.

Lemma pipeline_state (nc upc : nat) (sigma threshold : T) (grid_res : nat) (g : G) :
  snd (pipeline nc upc sigma threshold grid_res g) = snd (generate_units nc upc g).
Proof.
  unfold pipeline, bind, ret.
  destruct (generate_units nc upc g) as [r g']. reflexivity.
Qed.

End ScriptEdges.

(** X1.  A zero count never reaches the renderer: with [num_clusters = 0]
    the stacking of line 21 raises, and with [units_per_cluster = 0] the
    collection is empty and the minimum of line 25 raises.  Either way the
    script ends in [ValueError], in every arithmetic and from every state of
    the random source. *)
Theorem script_raises_on_zero_count {T : Type} {SC : Scalar T}
  {G : Type} {RS : RandomSource G T}
  (num_clusters units_per_cluster : nat) (sigma threshold : T)
  (grid_res : nat) (g : G) :
  num_clusters = 0%nat \/ units_per_cluster = 0%nat ->
  fst (pipeline num_clusters units_per_cluster sigma threshold grid_res g)
  = Raise ValueError.
Proof.
  intros H. rewrite pipeline_result.
  destruct num_clusters as [|nc]; [reflexivity|].
  destruct H as [H|H]; [discriminate|]. subst units_per_cluster.
  destruct (generate_units_positive (S nc) 0 g) as (units & Hu & Hlen); [lia|].
  rewrite Hu. cbn [rbind].
  rewrite Nat.mul_0_r in Hlen. apply length_zero_iff_nil in Hlen.
  subst units. reflexivity.
Qed.

Lemma script_raises_on_zero_count_witness :
  (4 = 0 \/ 0 = 0)%nat /\
  fst (pipeline (RS := tape_source (fun _ => [])) 4 0 15%R (2 / 10)%R 300 [1%R])
  = Raise ValueError.
Proof.
  split; [right; reflexivity|].
  apply script_raises_on_zero_count. right; reflexivity.
Defined.

(** ** Lines 14-41 with Python's check on [sigma ** 2] *)

Section CheckedFacts.

Context {T : Type} {SC : Scalar T} {PY : PythonFloat T}.

Lemma accumulate_loop_ok (X Y : array2 T) (sigma : T) (units : list (point T))
  (field : array2 T) :
  square_overflows sigma = false ->
  accumulate_loop X Y sigma units field
  = Ok (fold_left (add_unit X Y sigma) units field).
Proof.
  intros Hs. revert field. induction units as [|u units IH]; intros field.
  - reflexivity.
  - cbn [accumulate_loop fold_left]. unfold add_unit_checked, py_square.
    rewrite Hs. cbn [rbind]. apply IH.
Qed.

Lemma accumulate_loop_raises (X Y : array2 T) (sigma : T)
  (units : list (point T)) (field : array2 T) :
  square_overflows sigma = true -> units <> [] ->
  accumulate_loop X Y sigma units field = Raise OverflowError.
Proof.
  intros Hs Hne. destruct units as [|u units]; [congruence|].
  cbn [accumulate_loop]. unfold add_unit_checked, py_square.
  now rewrite Hs.
Qed.

(** When [sigma ** 2] does not overflow, lines 24-41 return what their
    values say. *)
Lemma field_of_units_checked_ok (units : list (point T)) (sigma threshold : T)
  (grid_res : nat) :
  square_overflows sigma = false ->
  field_of_units_checked units sigma threshold grid_res
  = field_of_units units sigma threshold grid_res.
Proof.
  intros Hs. unfold field_of_units_checked, field_of_units.
  destruct (build_grid units margin grid_res) as [g|e]; [|reflexivity].
  cbn [rbind]. unfold evaluate_field_checked, accumulate_checked.
  rewrite accumulate_loop_ok by assumption. reflexivity.
Qed.

(** When it does, the first turn of the loop raises, whatever the grid. *)
Lemma field_of_units_checked_raises (units : list (point T))
  (sigma threshold : T) (grid_res : nat) :
  square_overflows sigma = true -> units <> [] ->
  field_of_units_checked units sigma threshold grid_res = Raise OverflowError.
Proof.
  intros Hs Hne.
  destruct (build_grid_ok units margin grid_res Hne) as (lo & hi & _ & _ & Hg).
  unfold field_of_units_checked. rewrite Hg. cbn [rbind].
  unfold evaluate_field_checked, accumulate_checked.
  now rewrite accumulate_loop_raises.
Qed.

Context {G : Type} {RS : RandomSource G T}.

Lemma script_result (nc upc : nat) (sigma threshold : T) (grid_res : nat) (g : G) :
  fst (script nc upc sigma threshold grid_res g)
  = rbind (fst (generate_units nc upc g))
          (fun units => field_of_units_checked units sigma threshold grid_res).
Proof.
  unfold script, bind, ret.
  destruct (generate_units nc upc g) as [r g']. reflexivity.
Qed.

(** Without an overflow of [sigma ** 2] the script is the pipeline of its
    values; in the reals that is always. *)
Lemma script_is_pipeline (nc upc : nat) (sigma threshold : T) (grid_res : nat)
  (g : G) :
  square_overflows sigma = false ->
  script nc upc sigma threshold grid_res g
  = pipeline nc upc sigma threshold grid_res g.
Proof.
  intros Hs. unfold script, pipeline, bind, ret.
  destruct (generate_units nc upc g) as [[units|e] g']; [|reflexivity].
  cbn [rbind]. now rewrite field_of_units_checked_ok.
Qed.

End CheckedFacts.

(** X2.  With [grid_res = 0] and positive counts the units are generated and
    the grid is built, of no sample.  Line 38 then runs for the first unit:
    if [sigma ** 2] overflows Python raises [OverflowError] there; otherwise
    the accumulated field has no entry and [field.max()] at line 41 raises
    [ValueError].  Either way the renderer is not reached. *)
Theorem script_raises_on_empty_grid {T : Type} {SC : Scalar T}
  {PY : PythonFloat T} {G : Type} {RS : RandomSource G T}
  (num_clusters units_per_cluster : nat) (sigma threshold : T) (g : G) :
  (0 < num_clusters)%nat -> (0 < units_per_cluster)%nat ->
  exists units gr,
    fst (generate_units num_clusters units_per_cluster g) = Ok units /\
    build_grid units margin 0 = Ok gr /\ g_X gr = [] /\ g_Y gr = [] /\
    accumulate_checked (g_X gr) (g_Y gr) units sigma
    = (if square_overflows sigma then Raise OverflowError else Ok []) /\
    fst (script num_clusters units_per_cluster sigma threshold 0 g)
    = Raise (if square_overflows sigma then OverflowError else ValueError).
Proof.
  intros Hnc Hupc.
  destruct (generate_units_positive num_clusters units_per_cluster g Hnc)
    as (units & Hu & Hlen).
  assert (Hne : units <> []).
  { intros ->. simpl in Hlen. nia. }
  destruct (build_grid_ok units margin 0 Hne) as (lo & hi & _ & _ & Hg).
  match type of Hg with _ = Ok ?r => remember r as gr eqn:Egr end.
  clear Egr.
  destruct (build_grid_inv units margin 0 gr Hg)
    as (_ & Hx & Hy & _ & _ & EX & EY).
  apply length_zero_iff_nil in Hx, Hy. rewrite Hx, Hy in EX, EY.
  cbn in EX, EY.
  exists units, gr. split; [exact Hu|]. split; [exact Hg|].
  split; [exact EX|]. split; [exact EY|].
  rewrite script_result, Hu. cbn [rbind].
  destruct (square_overflows sigma) eqn:Hs.
  - split.
    + unfold accumulate_checked. now apply accumulate_loop_raises.
    + now apply field_of_units_checked_raises.
  - assert (E : accumulate (g_X gr) (g_Y gr) units sigma = []).
    { apply shape_nil_inv. rewrite shape_accumulate; rewrite EX, ?EY; auto. }
    split.
    + unfold accumulate_checked. rewrite accumulate_loop_ok by assumption.
      f_equal. exact E.
    + rewrite field_of_units_checked_ok by assumption.
      now apply field_of_units_empty_grid.
Qed.

Lemma script_raises_on_empty_grid_witness :
  (0 < 4)%nat /\ (0 < 10)%nat /\
  fst (script (SC := float_scalar (fun v => v))
         (RS := tape_source (SC := float_scalar (fun v => v)) (fun _ => [])) 4 10 15%float 0.5%float 0 [])
  = Raise ValueError /\
  fst (script (SC := float_scalar (fun v => v))
         (RS := tape_source (SC := float_scalar (fun v => v)) (fun _ => [])) 4 10 0x1p+600%float 0.5%float 0 [])
  = Raise OverflowError.
Proof.
  split; [lia|]. split; [lia|]. split.
  - destruct (script_raises_on_empty_grid (SC := float_scalar (fun v => v))
                (RS := tape_source (SC := float_scalar (fun v => v)) (fun _ => [])) 4 10 15%float 0.5%float []
                ltac:(lia) ltac:(lia)) as (units & gr & _ & _ & _ & _ & _ & H).
    exact H.
  - destruct (script_raises_on_empty_grid (SC := float_scalar (fun v => v))
                (RS := tape_source (SC := float_scalar (fun v => v)) (fun _ => [])) 4 10 0x1p+600%float 0.5%float
                [] ltac:(lia) ltac:(lia)) as (units & gr & _ & _ & _ & _ & _ & H).
    exact H.
Defined.

(** X3.  With positive counts and a positive [grid_res], lines 14-41 raise in
    one case only, in binary64 as in the reals and from every state of the
    random source: when [sigma ** 2] overflows, Python raises [OverflowError]
    at line 38.  Otherwise they complete and hand the renderer the
    [num_clusters * units_per_cluster] generated units, the single level
    [threshold], and three arrays [X], [Y] and [field] of [grid_res] rows of
    [grid_res] entries.  What the renderer does with them is not modelled. *)
Theorem script_reaches_renderer {T : Type} {SC : Scalar T}
  {PY : PythonFloat T} {G : Type} {RS : RandomSource G T}
  (num_clusters units_per_cluster : nat) (sigma threshold : T)
  (grid_res : nat) (g : G) :
  (0 < num_clusters)%nat -> (0 < units_per_cluster)%nat ->
  (0 < grid_res)%nat ->
  (square_overflows sigma = true ->
   fst (script num_clusters units_per_cluster sigma threshold grid_res g)
   = Raise OverflowError) /\
  (square_overflows sigma = false ->
   exists ri,
     fst (script num_clusters units_per_cluster sigma threshold grid_res g)
     = Ok ri /\
     fst (generate_units num_clusters units_per_cluster g) = Ok (ri_units ri) /\
     length (ri_units ri) = (num_clusters * units_per_cluster)%nat /\
     ri_levels ri = [threshold] /\
     shape (ri_X ri) = repeat grid_res grid_res /\
     shape (ri_Y ri) = repeat grid_res grid_res /\
     shape (ri_field ri) = repeat grid_res grid_res).
Proof.
  intros Hnc Hupc Hres.
  destruct (generate_units_positive num_clusters units_per_cluster g Hnc)
    as (units & Hu & Hlen).
  assert (Hne : units <> []).
  { intros ->. simpl in Hlen. nia. }
  split; intros Hs; rewrite script_result, Hu; cbn [rbind].
  - now apply field_of_units_checked_raises.
  - rewrite field_of_units_checked_ok by assumption.
    destruct (field_of_units_returns units sigma threshold grid_res Hne Hres)
      as (gr & m & Hg & _ & Hf).
    destruct (build_grid_shapes units margin grid_res gr Hg) as [HX HY].
    eexists. split; [exact Hf|].
    cbn [ri_units ri_levels ri_X ri_Y ri_field].
    repeat split; auto.
    rewrite shape_arr_scalar, shape_accumulate; congruence.
Qed.

Lemma script_reaches_renderer_witness :
  (0 < 4)%nat /\ (0 < 10)%nat /\ (0 < 300)%nat /\
  square_overflows 15%float = false /\
  square_overflows 0x1p+600%float = true /\
  (exists ri,
     fst (script (SC := float_scalar (fun v => v))
            (RS := tape_source (SC := float_scalar (fun v => v)) (fun _ => [])) 4 10 15%float 0.5%float 300 [])
     = Ok ri /\ length (ri_units ri) = 40%nat) /\
  fst (script (SC := float_scalar (fun v => v))
         (RS := tape_source (SC := float_scalar (fun v => v)) (fun _ => [])) 4 10 0x1p+600%float 0.5%float 300 [])
  = Raise OverflowError.
Proof.
  split; [lia|]. split; [lia|]. split; [lia|].
  split; [reflexivity|]. split; [reflexivity|]. split.
  - destruct (script_reaches_renderer (SC := float_scalar (fun v => v))
                (RS := tape_source (SC := float_scalar (fun v => v)) (fun _ => [])) 4 10 15%float 0.5%float 300 []
                ltac:(lia) ltac:(lia) ltac:(lia)) as [_ H].
    destruct (H eq_refl) as (ri & H1 & _ & H2 & _).
    exists ri. auto.
  - destruct (script_reaches_renderer (SC := float_scalar (fun v => v))
                (RS := tape_source (SC := float_scalar (fun v => v)) (fun _ => [])) 4 10 0x1p+600%float 0.5%float
                300 [] ltac:(lia) ltac:(lia) ltac:(lia)) as [H _].
    exact (H eq_refl).
Defined.

(** X4.  In every arithmetic, binary64 included, the upper bound of each
    axis is sampled exactly once there are two samples: the last sample of
    [np.linspace] is the bound itself, stored and not computed.  So the last
    column of [X] is [xmax] and the last row of [Y] is [ymax], without
    rounding. *)
Theorem grid_upper_bound_is_sampled {T : Type} {SC : Scalar T}
  (units : list (point T)) (m : T) (grid_res : nat) :
  units <> [] -> (2 <= grid_res)%nat ->
  exists g,
    build_grid units m grid_res = Ok g /\
    nth (grid_res - 1) (g_x g) (s_of_Z 0) = g_xmax g /\
    nth (grid_res - 1) (g_y g) (s_of_Z 0) = g_ymax g /\
    forall i, (i < grid_res)%nat ->
      at2 (g_X g) i (grid_res - 1) = g_xmax g /\
      at2 (g_Y g) (grid_res - 1) i = g_ymax g.
Proof.
  intros Hne Hres.
  destruct (build_grid_ok units m grid_res Hne) as (lo & hi & _ & _ & Hg).
  match type of Hg with _ = Ok ?r => remember r as g eqn:Eg end.
  destruct (build_grid_inv units m grid_res g Hg)
    as (_ & Hx & Hy & Ex & Ey & EX & EY).
  assert (Lx : nth (grid_res - 1) (g_x g) (s_of_Z 0) = g_xmax g)
    by (rewrite Ex; now apply linspace_last).
  assert (Ly : nth (grid_res - 1) (g_y g) (s_of_Z 0) = g_ymax g)
    by (rewrite Ey; now apply linspace_last).
  exists g. repeat split; auto.
  - rewrite EX. destruct (meshgrid_at2 (g_x g) (g_y g) i (grid_res - 1))
      as [E _]; try lia. now rewrite E.
  - rewrite EY. destruct (meshgrid_at2 (g_x g) (g_y g) (grid_res - 1) i)
      as [_ E]; try lia. now rewrite E.
Qed.

Lemma grid_upper_bound_is_sampled_witness :
  [(1%float, 2%float)] <> [] /\ (2 <= 300)%nat /\
  exists g,
    build_grid (SC := float_scalar (fun v => v)) [(1%float, 2%float)]
      20%float 300 = Ok g /\
    nth 299 (g_x g) 0%float = 21%float.
Proof.
  split; [discriminate|]. split; [lia|].
  destruct (grid_upper_bound_is_sampled (SC := float_scalar (fun v => v))
              [(1%float, 2%float)] 20%float 300 ltac:(discriminate) ltac:(lia))
    as (g & Hg & Hx & _).
  exists g. split; [exact Hg|].
  change (nth 299 (g_x g) 0%float) with (nth (300 - 1) (g_x g) 0%float).
  etransitivity; [exact Hx|].
  apply (f_equal (result_map g_xmax)) in Hg. vm_compute in Hg.
  injection Hg as Hg. symmetry. exact Hg.
Defined.

(** * Beyond the claims: what the generator takes from the random source *)

Section TapeReads.

Context {T : Type} {SC : Scalar T}.

Lemma reads_ret {A} (Q : A -> Prop) (a : A) : Q a -> reads (T := T) 0 Q (ret a).
Proof.
  intros Ha pre Hpre. apply length_zero_iff_nil in Hpre. subst pre.
  exists a. split; auto.
Qed.

Lemma reads_bind {A B} (k k' : nat) (Q : A -> Prop) (Q' : B -> Prop)
  (m : Rand (list T) A) (f : A -> Rand (list T) B) :
  reads k Q m -> (forall a, Q a -> reads k' Q' (f a)) ->
  reads (k + k') Q' (bind m f).
Proof.
  intros Hm Hf pre Hpre.
  destruct (Hm (firstn k pre)) as (a & Ha & Em).
  { rewrite length_firstn. lia. }
  destruct (Hf a Ha (skipn k pre)) as (b & Hb & Ef).
  { rewrite length_skipn. lia. }
  exists b. split; [exact Hb|]. intros rest. unfold bind.
  rewrite <- (firstn_skipn k pre), <- app_assoc, Em. apply Ef.
Qed.

Lemma reads_weaken {A} (k : nat) (Q Q' : A -> Prop) (m : Rand (list T) A) :
  (forall a, Q a -> Q' a) -> reads k Q m -> reads k Q' m.
Proof.
  intros HQ Hm pre Hpre. destruct (Hm pre Hpre) as (a & Ha & E). eauto.
Qed.

Lemma reads_next_draw : reads 1 (fun _ : T => True) next_draw.
Proof.
  intros [|v [|w pre]] Hpre; try discriminate. exists v. auto.
Qed.

Lemma reads_draw_rows (n : nat) (draw : Rand (list T) T) :
  reads 1 (fun _ => True) draw ->
  reads (2 * n) (fun rows => length rows = n) (draw_rows n draw).
Proof.
  intros Hd. induction n as [|n IH].
  - apply (reads_ret (fun rows : list (point T) => length rows = 0%nat)).
    reflexivity.
  - replace (2 * S n)%nat with (1 + (1 + (2 * n + 0)))%nat by lia.
    cbn [draw_rows].
    apply (reads_bind 1 _ (fun _ => True)); [exact Hd|]. intros a _.
    apply (reads_bind 1 _ (fun _ => True)); [exact Hd|]. intros b _.
    apply (reads_bind (2 * n) 0 (fun rows => length rows = n)); [exact IH|].
    intros rest Hrest.
    apply (reads_ret (fun rows : list (point T) => length rows = S n)).
    simpl. now rewrite Hrest.
Qed.

Variable tape_of_seed : Z -> list T.

Let RSt : RandomSource (list T) T := tape_source tape_of_seed.
Existing Instance RSt.

Lemma reads_uniform (low high : T) : reads 1 (fun _ => True) (rs_uniform low high).
Proof.
  apply (reads_bind 1 0 (fun _ => True) _ next_draw); [apply reads_next_draw|].
  intros v _. now apply reads_ret.
Qed.

Lemma reads_normal (loc scale : T) : reads 1 (fun _ => True) (rs_normal loc scale).
Proof.
  apply (reads_bind 1 0 (fun _ => True) _ next_draw); [apply reads_next_draw|].
  intros v _. now apply reads_ret.
Qed.

Lemma reads_make_cluster (upc : nat) (center : point T) :
  reads (2 * upc) (fun cluster => length cluster = upc)
    (make_cluster upc center).
Proof.
  replace (2 * upc)%nat with (2 * upc + 0)%nat by lia.
  apply (reads_bind (2 * upc) 0 (fun rows => length rows = upc)).
  - apply reads_draw_rows, reads_normal.
  - intros noise Hn.
    apply (reads_ret (fun cluster : list (point T) => length cluster = upc)).
    unfold add_center. now rewrite length_map.
Qed.

Lemma reads_make_clusters (upc : nat) (centers : list (point T)) :
  reads (length centers * (2 * upc))
    (fun clusters => length clusters = length centers /\
                     Forall (fun c => length c = upc) clusters)
    (make_clusters upc centers).
Proof.
  induction centers as [|c centers IH].
  - apply (reads_ret (fun clusters : list (list (point T)) =>
                        length clusters = 0%nat /\
                        Forall (fun c => length c = upc) clusters)).
    split; [reflexivity | constructor].
  - cbn [length make_clusters].
    replace (S (length centers) * (2 * upc))%nat
      with (2 * upc + (length centers * (2 * upc) + 0))%nat by lia.
    apply (reads_bind (2 * upc) _ (fun cluster => length cluster = upc));
      [apply reads_make_cluster|]. intros cluster Hc.
    eapply reads_bind; [exact IH|]. intros rest [Hl Hall].
    apply (reads_ret (fun clusters : list (list (point T)) =>
                        length clusters = S (length centers) /\
                        Forall (fun c => length c = upc) clusters)).
    split; [simpl; now rewrite Hl | now constructor].
Qed.

Lemma reads_generate_units (nc upc : nat) :
  reads (2 * nc + nc * (2 * upc))
    (fun r => match r with
              | Ok units => (0 < nc)%nat /\ length units = (nc * upc)%nat
              | Raise _ => nc = 0%nat
              end)
    (generate_units nc upc).
Proof.
  unfold generate_units, generate_clusters.
  replace (2 * nc + nc * (2 * upc))%nat
    with (2 * nc + nc * (2 * upc) + 0)%nat by lia.
  eapply reads_bind.
  - eapply reads_bind.
    + apply reads_draw_rows, reads_uniform.
    + intros centers Hc. cbn beta. rewrite <- Hc at 1.
      eapply reads_weaken; [|apply reads_make_clusters].
      intros clusters H. rewrite Hc in H. exact H.
  - intros clusters [Hl Hall]. apply reads_ret.
    destruct clusters as [|c cs]; cbn [vstack].
    + simpl in Hl. lia.
    + split; [simpl in Hl; lia|].
      rewrite (length_concat_uniform upc) by assumption. now rewrite Hl.
Qed.

End TapeReads.

(** X5.  On a random source that replays a tape of standard draws, the
    generator takes exactly [2 * num_clusters * (1 + units_per_cluster)]
    draws: two per centre and two per unit.  Its result depends on those
    draws only, whatever follows them on the tape is left untouched, and the
    rest of the script (grid and field) draws nothing. *)
Theorem generator_reads_its_draws {T : Type} {SC : Scalar T}
  (tape_of_seed : Z -> list T) (num_clusters units_per_cluster : nat)
  (sigma threshold : T) (grid_res : nat) (pre : list T) :
  length pre = (2 * num_clusters * (1 + units_per_cluster))%nat ->
  exists r, forall rest,
    generate_units (RS := tape_source tape_of_seed)
      num_clusters units_per_cluster (pre ++ rest) = (r, rest) /\
    snd (pipeline (RS := tape_source tape_of_seed)
           num_clusters units_per_cluster sigma threshold grid_res
           (pre ++ rest)) = rest.
Proof.
  intros Hpre.
  destruct (reads_generate_units tape_of_seed num_clusters units_per_cluster pre)
    as (r & _ & Hr); [lia|].
  exists r. intros rest. split; [apply Hr|].
  rewrite pipeline_state, Hr. reflexivity.
Qed.

Lemma generator_reads_its_draws_witness :
  length [1%R; 2%R; 3%R; 4%R] = (2 * 1 * (1 + 1))%nat /\
  exists r, forall rest,
    generate_units (RS := tape_source (fun _ => [])) 1 1
      ([1%R; 2%R; 3%R; 4%R] ++ rest) = (r, rest).
Proof.
  split; [reflexivity|].
  destruct (generator_reads_its_draws (fun _ => []) 1 1 15%R (2 / 10)%R 10
              [1%R; 2%R; 3%R; 4%R] eq_refl) as [r Hr].
  exists r. intros rest. apply Hr.
Defined.

(** * Beyond the claims: the grid around the units (exact reals) *)

Section ArrayExt.

Context {T : Type} {SC : Scalar T}.

(** Two arrays of one shape with the same entries are the same array. *)
Lemma array2_ext (A B : array2 T) :
  shape A = shape B ->
  (forall i j, in_range A i j -> at2 A i j = at2 B i j) -> A = B.
Proof.
  intros HS Hat. apply (nth_ext A B [] []).
  - now apply shape_length.
  - intros i Hi. apply (nth_ext _ _ (s_of_Z 0) (s_of_Z 0)).
    + now rewrite !row_length_shape, HS.
    + intros j Hj. apply (Hat i j). now split.
Qed.

End ArrayExt.

Section RealGridBounds.

Local Open Scope R_scope.

(** The grid of a non-empty real collection, with what is known of its
    bounds and axes. *)
Lemma build_grid_real (units : list (point R)) (m : R) (grid_res : nat) :
  units <> [] ->
  exists lo hi g,
    build_grid units m grid_res = Ok g /\
    is_min_of (map fst units) (fst lo) /\ is_min_of (map snd units) (snd lo) /\
    is_max_of (map fst units) (fst hi) /\ is_max_of (map snd units) (snd hi) /\
    g_xmin g = fst lo - m /\ g_ymin g = snd lo - m /\
    g_xmax g = fst hi + m /\ g_ymax g = snd hi + m /\
    g_x g = linspace (g_xmin g) (g_xmax g) grid_res /\
    g_y g = linspace (g_ymin g) (g_ymax g) grid_res /\
    g_X g = fst (meshgrid (g_x g) (g_y g)) /\
    g_Y g = snd (meshgrid (g_x g) (g_y g)).
Proof.
  intros Hne.
  destruct (units_min_spec units Hne) as (lo & Hlo & Hlox & Hloy).
  destruct (units_max_spec units Hne) as (hi & Hhi & Hhix & Hhiy).
  destruct (build_grid_ok units m grid_res Hne) as (lo' & hi' & Hlo' & Hhi' & Hg).
  rewrite Hlo in Hlo'. rewrite Hhi in Hhi'.
  injection Hlo' as <-. injection Hhi' as <-.
  exists lo, hi. eexists. split; [exact Hg|].
  cbn [g_x g_y g_X g_Y g_xmin g_ymin g_xmax g_ymax].
  repeat split; try apply Hlox; try apply Hloy; try apply Hhix; try apply Hhiy.
Qed.

Lemma min_le_max (vs : list R) (lo hi : R) :
  is_min_of vs lo -> is_max_of vs hi -> lo <= hi.
Proof. intros [Hin _] [_ Hub]. now apply Hub. Qed.

(** The samples of an axis from [a] up to [b]: inside the bounds, and
    strictly increasing when [a < b]. *)
Lemma linspace_within (a b : R) (n i : nat) :
  a <= b -> (i < n)%nat -> a <= nth i (linspace a b n) 0 <= b.
Proof.
  intros Hab Hi. destruct (Nat.eq_dec n 1) as [->|Hn].
  - rewrite linspace_one_R. destruct i; [simpl; lra | lia].
  - rewrite linspace_nth_R by lia.
    assert (H1 : 1 <= INR n - 1).
    { assert (H2 : (2 <= n)%nat) by lia. apply le_INR in H2. simpl in H2. lra. }
    assert (H0 : 0 <= INR i) by apply pos_INR.
    assert (Hle : INR i <= INR n - 1).
    { assert (H2 : (i + 1 <= n)%nat) by lia. apply le_INR in H2.
      rewrite plus_INR in H2. simpl in H2. lra. }
    assert (Hs : 0 <= (b - a) / (INR n - 1)).
    { apply Rmult_le_pos; [lra|]. apply Rlt_le, Rinv_0_lt_compat. lra. }
    assert (Hw : (INR n - 1) * ((b - a) / (INR n - 1)) = b - a)
      by (field; lra).
    split; nra.
Qed.

Lemma linspace_increasing (a b : R) (n i j : nat) :
  a < b -> (i < j)%nat -> (j < n)%nat ->
  nth i (linspace a b n) 0 < nth j (linspace a b n) 0.
Proof.
  intros Hab Hij Hj. rewrite !linspace_nth_R by lia.
  assert (H1 : 1 <= INR n - 1).
  { assert (H2 : (2 <= n)%nat) by lia. apply le_INR in H2. simpl in H2. lra. }
  assert (Hs : 0 < (b - a) / (INR n - 1)).
  { apply Rmult_lt_0_compat; [lra|]. apply Rinv_0_lt_compat. lra. }
  apply lt_INR in Hij. nra.
Qed.

End RealGridBounds.

(** X6.  Every unit lies inside the grid, at least the margin of 20 away
    from each of its four sides, and the grid is at least 40 wide and 40
    high. *)
Theorem units_inside_grid (units : list (point R)) (grid_res : nat) :
  units <> [] ->
  exists g,
    build_grid units margin grid_res = Ok g /\
    (40 <= g_xmax g - g_xmin g)%R /\ (40 <= g_ymax g - g_ymin g)%R /\
    forall u, In u units ->
      (g_xmin g + 20 <= fst u <= g_xmax g - 20)%R /\
      (g_ymin g + 20 <= snd u <= g_ymax g - 20)%R.
Proof.
  intros Hne.
  destruct (build_grid_real units margin grid_res Hne)
    as (lo & hi & g & Hg & Hlox & Hloy & Hhix & Hhiy & Exmin & Eymin & Exmax
        & Eymax & _).
  exists g. split; [exact Hg|].
  rewrite Exmin, Eymin, Exmax, Eymax. unfold margin. simpl s_of_Z.
  pose proof (min_le_max _ _ _ Hlox Hhix).
  pose proof (min_le_max _ _ _ Hloy Hhiy).
  split; [lra|]. split; [lra|]. intros u Hu.
  pose proof (proj2 Hlox (fst u) (in_map fst units u Hu)).
  pose proof (proj2 Hhix (fst u) (in_map fst units u Hu)).
  pose proof (proj2 Hloy (snd u) (in_map snd units u Hu)).
  pose proof (proj2 Hhiy (snd u) (in_map snd units u Hu)).
  lra.
Qed.

Lemma units_inside_grid_witness :
  [(1%R, 2%R); (3%R, 0%R)] <> [] /\
  exists g, build_grid [(1%R, 2%R); (3%R, 0%R)] margin 300 = Ok g /\
            (g_xmin g + 20 <= 3 <= g_xmax g - 20)%R.
Proof.
  split; [discriminate|].
  destruct (units_inside_grid [(1%R, 2%R); (3%R, 0%R)] 300 ltac:(discriminate))
    as (g & Hg & _ & _ & Hin).
  exists g. split; [exact Hg|].
  apply (Hin (3%R, 0%R)). simpl. auto.
Defined.

(** X7.  The samples of each axis lie between the bounds of the grid and
    increase strictly with the index, so no two grid columns and no two grid
    rows coincide: [X[i,j]] is within [xmin, xmax] and grows with [j],
    [Y[i,j]] is within [ymin, ymax] and grows with [i]. *)
Theorem grid_samples_ordered (units : list (point R)) (grid_res : nat) :
  units <> [] ->
  exists g,
    build_grid units margin grid_res = Ok g /\
    (forall i j, (i < grid_res)%nat -> (j < grid_res)%nat ->
       (g_xmin g <= at2 (g_X g) i j <= g_xmax g)%R /\
       (g_ymin g <= at2 (g_Y g) i j <= g_ymax g)%R) /\
    (forall i j j', (i < grid_res)%nat -> (j < j')%nat -> (j' < grid_res)%nat ->
       (at2 (g_X g) i j < at2 (g_X g) i j')%R /\
       (at2 (g_Y g) j i < at2 (g_Y g) j' i)%R).
Proof.
  intros Hne.
  destruct (build_grid_real units margin grid_res Hne)
    as (lo & hi & g & Hg & Hlox & Hloy & Hhix & Hhiy & Exmin & Eymin & Exmax
        & Eymax & Ex & Ey & EX & EY).
  pose proof (min_le_max _ _ _ Hlox Hhix) as Hx.
  pose proof (min_le_max _ _ _ Hloy Hhiy) as Hy.
  assert (Hwx : (g_xmin g < g_xmax g)%R).
  { rewrite Exmin, Exmax. unfold margin. simpl s_of_Z. lra. }
  assert (Hwy : (g_ymin g < g_ymax g)%R).
  { rewrite Eymin, Eymax. unfold margin. simpl s_of_Z. lra. }
  assert (Lx : length (g_x g) = grid_res) by (rewrite Ex; apply length_linspace).
  assert (Ly : length (g_y g) = grid_res) by (rewrite Ey; apply length_linspace).
  assert (Hat : forall i j, (i < grid_res)%nat -> (j < grid_res)%nat ->
            at2 (g_X g) i j = nth j (linspace (g_xmin g) (g_xmax g) grid_res) 0%R /\
            at2 (g_Y g) i j = nth i (linspace (g_ymin g) (g_ymax g) grid_res) 0%R).
  { intros i j Hi Hj. rewrite EX, EY.
    destruct (meshgrid_at2 (g_x g) (g_y g) i j) as [E1 E2]; try lia.
    rewrite E1, E2, <- Ex, <- Ey. split; reflexivity. }
  exists g. split; [exact Hg|]. split.
  - intros i j Hi Hj. destruct (Hat i j Hi Hj) as [-> ->].
    split; apply linspace_within; auto; lra.
  - intros i j j' Hi Hjj Hj'.
    destruct (Hat i j Hi ltac:(lia)) as [-> _].
    destruct (Hat i j' Hi Hj') as [-> _].
    destruct (Hat j i ltac:(lia) Hi) as [_ ->].
    destruct (Hat j' i Hj' Hi) as [_ ->].
    split; apply linspace_increasing; auto.
Qed.

Lemma grid_samples_ordered_witness :
  [(1%R, 2%R)] <> [] /\
  exists g, build_grid [(1%R, 2%R)] margin 300 = Ok g /\
            (at2 (g_X g) 0 0 < at2 (g_X g) 0 1)%R.
Proof.
  split; [discriminate|].
  destruct (grid_samples_ordered [(1%R, 2%R)] 300 ltac:(discriminate))
    as (g & Hg & _ & Hinc).
  exists g. split; [exact Hg|].
  apply (Hinc 0%nat 0%nat 1%nat); lia.
Defined.

(** * Beyond the claims: the field as a sum of kernels (exact reals) *)

Section RealSum.

Local Open Scope R_scope.

Variable k : point R -> R.

Lemma kernel_sum_shift (units : list (point R)) (a : R) :
  fold_left (fun acc u => acc + k u) units a
  = a + fold_left (fun acc u => acc + k u) units 0.
Proof.
  revert a. induction units as [|u units IH]; intros a; simpl; [lra|].
  rewrite (IH (a + k u)), (IH (0 + k u)). lra.
Qed.

Lemma kernel_sum_perm (units units' : list (point R)) (a : R) :
  Permutation units units' ->
  fold_left (fun acc u => acc + k u) units a
  = fold_left (fun acc u => acc + k u) units' a.
Proof.
  intros HP. revert a.
  induction HP as [|x l l' _ IH|x y l|l l' l'' _ IH1 _ IH2]; intros a; simpl.
  - reflexivity.
  - apply IH.
  - f_equal. lra.
  - now rewrite IH1.
Qed.

Lemma kernel_sum_le (units : list (point R)) :
  (forall u, k u <= 1) ->
  fold_left (fun acc u => acc + k u) units 0 <= INR (length units).
Proof.
  intros Hk. induction units as [|u units IH].
  - simpl. lra.
  - cbn [fold_left length]. rewrite kernel_sum_shift, S_INR.
    specialize (Hk u). lra.
Qed.

End RealSum.

Section RealKernel.

Local Open Scope R_scope.

Lemma at2_accumulate (X Y : array2 R) (units : list (point R)) (sigma : R) i j :
  shape X = shape Y -> in_range X i j ->
  at2 (accumulate X Y units sigma) i j
  = fold_left (fun acc u => acc + kernel sigma (at2 X i j) (at2 Y i j) u)
      units 0.
Proof.
  intros HXY HX. unfold accumulate.
  rewrite at2_fold_add_unit, at2_zeros_like; auto using shape_zeros_like.
Qed.

(** The exponent of the kernel is the squared distance over [2 sigma^2],
    negated. *)
Lemma kernel_exponent (sigma px py : R) (u : point R) :
  kernel sigma px py u
  = exp (- (((px - fst u) * (px - fst u) + (py - snd u) * (py - snd u))
            / (2 * (sigma * sigma)))).
Proof.
  unfold kernel, sq. simpl. f_equal. unfold Rdiv. ring.
Qed.

Lemma exp_nonpos_le_1 (a : R) : 0 <= a -> exp (- a) <= 1.
Proof.
  intros Ha. rewrite <- exp_0. apply exp_le_mono. lra.
Qed.

Lemma kernel_le_1 (sigma px py : R) (u : point R) :
  0 < sigma -> kernel sigma px py u <= 1.
Proof.
  intros Hs. rewrite kernel_exponent. apply exp_nonpos_le_1.
  pose proof (Rle_0_sqr (px - fst u)) as H1.
  pose proof (Rle_0_sqr (py - snd u)) as H2. unfold Rsqr in H1, H2.
  unfold Rdiv. apply Rmult_le_pos; [lra|].
  apply Rlt_le, Rinv_0_lt_compat. nra.
Qed.

End RealKernel.

(** X8.  In exact real arithmetic the accumulated field does not depend on
    the order of the units: a permutation of the collection gives the same
    field. *)
Theorem accumulate_permutation (X Y : array2 R) (units units' : list (point R))
  (sigma : R) :
  shape X = shape Y -> Permutation units units' ->
  accumulate X Y units sigma = accumulate X Y units' sigma.
Proof.
  intros HXY HP. apply array2_ext.
  - now rewrite !shape_accumulate.
  - intros i j Hr.
    assert (HX : in_range X i j).
    { apply (in_range_shape (accumulate X Y units sigma)); auto.
      now apply shape_accumulate. }
    rewrite !at2_accumulate by assumption.
    now apply kernel_sum_perm.
Qed.

Lemma accumulate_permutation_witness :
  shape [[1%R; 2%R]] = shape [[3%R; 4%R]] /\
  Permutation [(0%R, 0%R); (5%R, 6%R)] [(5%R, 6%R); (0%R, 0%R)] /\
  accumulate [[1%R; 2%R]] [[3%R; 4%R]] [(0%R, 0%R); (5%R, 6%R)] 15%R
  = accumulate [[1%R; 2%R]] [[3%R; 4%R]] [(5%R, 6%R); (0%R, 0%R)] 15%R.
Proof.
  split; [reflexivity|]. split; [apply perm_swap|].
  apply accumulate_permutation; [reflexivity | apply perm_swap].
Defined.

(** X9.  In exact real arithmetic the field of two collections put together
    is the entrywise sum of their fields: each unit adds its own kernel and
    nothing else. *)
Theorem accumulate_app (X Y : array2 R) (units1 units2 : list (point R))
  (sigma : R) :
  shape X = shape Y ->
  accumulate X Y (units1 ++ units2) sigma
  = arr_arr Rplus (accumulate X Y units1 sigma) (accumulate X Y units2 sigma).
Proof.
  intros HXY. apply array2_ext.
  - rewrite shape_arr_arr; now rewrite !shape_accumulate.
  - intros i j Hr.
    assert (HX : in_range X i j).
    { apply (in_range_shape (accumulate X Y (units1 ++ units2) sigma)); auto.
      now apply shape_accumulate. }
    rewrite at2_arr_arr.
    + rewrite !at2_accumulate by assumption.
      rewrite fold_left_app. apply kernel_sum_shift.
    + now rewrite !shape_accumulate.
    + apply (in_range_shape X); auto. now rewrite shape_accumulate.
Qed.

Lemma accumulate_app_witness :
  shape [[1%R; 2%R]] = shape [[3%R; 4%R]] /\
  accumulate [[1%R; 2%R]] [[3%R; 4%R]] ([(0%R, 0%R)] ++ [(5%R, 6%R)]) 15%R
  = arr_arr Rplus
      (accumulate [[1%R; 2%R]] [[3%R; 4%R]] [(0%R, 0%R)] 15%R)
      (accumulate [[1%R; 2%R]] [[3%R; 4%R]] [(5%R, 6%R)] 15%R).
Proof.
  split; [reflexivity|]. now apply accumulate_app.
Defined.

(** X10.  In exact real arithmetic, for a positive [sigma], the kernel of a
    unit is in (0, 1], is 1 exactly at the unit itself, and does not grow with
    the distance: a point at least as far from the unit as another has at
    most its kernel.  (In binary64 the kernel rounds, to 0 far from the unit
    and to 1 close to it.) *)
Theorem kernel_peak_and_decay (sigma px py qx qy : R) (u : point R) :
  (0 < sigma)%R ->
  (0 < kernel sigma px py u <= 1)%R /\
  (kernel sigma px py u = 1%R <-> px = fst u /\ py = snd u) /\
  ((px - fst u) * (px - fst u) + (py - snd u) * (py - snd u)
   <= (qx - fst u) * (qx - fst u) + (qy - snd u) * (qy - snd u) ->
   kernel sigma qx qy u <= kernel sigma px py u)%R.
Proof.
  intros Hs.
  assert (Hd : (0 < 2 * (sigma * sigma))%R) by nra.
  split; [split; [apply kernel_pos | now apply kernel_le_1]|]. split.
  - rewrite kernel_exponent. split.
    + intros E. rewrite <- exp_0 in E. apply exp_inv in E.
      assert (E0 : ((px - fst u) * (px - fst u)
                    + (py - snd u) * (py - snd u) = 0)%R).
      { apply (Rmult_eq_reg_r (/ (2 * (sigma * sigma)))).
        - unfold Rdiv in E. lra.
        - apply Rinv_neq_0_compat. lra. }
      pose proof (Rle_0_sqr (px - fst u)) as H1.
      pose proof (Rle_0_sqr (py - snd u)) as H2. unfold Rsqr in H1, H2.
      assert (Ex : ((px - fst u) * (px - fst u) = 0)%R) by lra.
      assert (Ey : ((py - snd u) * (py - snd u) = 0)%R) by lra.
      apply Rmult_integral in Ex, Ey. split; lra.
    + intros [-> ->]. rewrite <- exp_0. f_equal. unfold Rdiv. ring.
  - intros Hle. rewrite !kernel_exponent. apply exp_le_mono.
    apply Ropp_le_contravar. unfold Rdiv.
    apply Rmult_le_compat_r; [|exact Hle].
    apply Rlt_le, Rinv_0_lt_compat. exact Hd.
Qed.

Lemma kernel_peak_and_decay_witness :
  (0 < 15)%R /\ (kernel 15%R 3%R 4%R (3%R, 4%R) = 1%R).
Proof.
  split; [lra|].
  apply (proj2 (proj1 (proj2
    (kernel_peak_and_decay 15%R 3%R 4%R 0%R 0%R (3%R, 4%R) ltac:(lra))))).
  split; reflexivity.
Defined.

(** X11.  For a positive [sigma] the accumulated field is at most the number
    of units at every grid point (and never negative). *)
Theorem accumulate_bounded (X Y : array2 R) (units : list (point R))
  (sigma : R) (i j : nat) :
  (0 < sigma)%R -> shape X = shape Y -> in_range X i j ->
  (0 <= at2 (accumulate X Y units sigma) i j <= INR (length units))%R.
Proof.
  intros Hs HXY HX. rewrite at2_accumulate by assumption. split.
  - apply (kernel_sum_ge (fun u => kernel sigma (at2 X i j) (at2 Y i j) u)).
    intros u. apply kernel_pos.
  - apply (kernel_sum_le (fun u => kernel sigma (at2 X i j) (at2 Y i j) u)).
    intros u. now apply kernel_le_1.
Qed.

Lemma accumulate_bounded_witness :
  (0 < 15)%R /\ shape [[1%R]] = shape [[2%R]] /\ in_range [[1%R]] 0 0 /\
  (at2 (accumulate [[1%R]] [[2%R]] [(0%R, 0%R); (5%R, 6%R)] 15%R) 0 0 <= 2)%R.
Proof.
  split; [lra|]. split; [reflexivity|]. split; [split; simpl; lia|].
  destruct (accumulate_bounded [[1%R]] [[2%R]] [(0%R, 0%R); (5%R, 6%R)] 15%R
              0 0 ltac:(lra) eq_refl ltac:(split; simpl; lia)) as [_ H].
  simpl INR in H. lra.
Defined.

(** * Beyond the claims: the normalisation (exact reals) *)

Section RealNormalize.

Local Open Scope R_scope.

Lemma field_max_Ok_inv (field : array2 R) (m : R) :
  field_max field = Ok m ->
  In m (concat field) /\ forall v, In v (concat field) -> v <= m.
Proof.
  intros Hm. destruct (field_max_spec field) as (m' & E & Hin & Hub).
  - intros E. unfold field_max in Hm. now rewrite E in Hm.
  - rewrite Hm in E. injection E as <-. auto.
Qed.

Lemma field_max_normalized (field : array2 R) (m : R) :
  field_max field = Ok m -> 0 < m ->
  field_max (arr_scalar Rdiv field m) = Ok 1.
Proof.
  intros Hm Hpos. destruct (field_max_Ok_inv field m Hm) as [Hin Hub].
  apply field_max_unique.
  - rewrite concat_arr_scalar. apply in_map_iff. exists m. split; auto.
    apply Rdiv_diag. lra.
  - intros v Hv. rewrite concat_arr_scalar in Hv.
    apply in_map_iff in Hv. destruct Hv as (a & <- & Ha).
    apply (Rmult_le_reg_r m); [assumption|].
    unfold Rdiv. rewrite Rmult_assoc, Rinv_l by lra.
    specialize (Hub a Ha). lra.
Qed.

Lemma arr_scalar_div_1 (F : array2 R) : arr_scalar Rdiv F 1 = F.
Proof.
  unfold arr_scalar. rewrite <- (map_id F) at 2. apply map_ext. intros row.
  rewrite <- (map_id row) at 2. apply map_ext. intros v. field.
Qed.

End RealNormalize.

(** X12.  Normalising is idempotent in exact real arithmetic: once a field
    with a positive maximum has been divided by it, its maximum is 1 and
    line 41 applied again returns the same field. *)
Theorem normalize_idempotent (field : array2 R) (m : R) :
  field_max field = Ok m -> (0 < m)%R ->
  exists F, normalize field = Ok F /\ field_max F = Ok 1%R /\
            normalize F = Ok F.
Proof.
  intros Hm Hpos. exists (arr_scalar Rdiv field m).
  pose proof (field_max_normalized field m Hm Hpos) as H1.
  split; [unfold normalize; now rewrite Hm|]. split; [exact H1|].
  unfold normalize. rewrite H1. cbn [rbind]. f_equal.
  apply arr_scalar_div_1.
Qed.

Lemma normalize_idempotent_witness :
  field_max [[2%R; 4%R]] = Ok 4%R /\ (0 < 4)%R /\
  exists F, normalize [[2%R; 4%R]] = Ok F /\ normalize F = Ok F.
Proof.
  assert (Hm : field_max [[2%R; 4%R]] = Ok 4%R).
  { unfold field_max. simpl. f_equal. apply Rmax_right. lra. }
  split; [exact Hm|]. split; [lra|].
  destruct (normalize_idempotent [[2%R; 4%R]] 4%R Hm ltac:(lra))
    as (F & H1 & _ & H2).
  exists F. auto.
Defined.

(** X13.  Normalising keeps the order of the cells and rescales the levels:
    with [m] the positive maximum of the accumulated field, a cell of the
    normalised field is at or above a level [t] exactly when the accumulated
    field is at or above [t * m] there, and one cell is below another after
    normalisation exactly when it was before. *)
Theorem threshold_on_raw_field (field : array2 R) (m t : R) (i j i' j' : nat) :
  field_max field = Ok m -> (0 < m)%R ->
  in_range field i j -> in_range field i' j' ->
  exists F, normalize field = Ok F /\
    (t <= at2 F i j <-> t * m <= at2 field i j)%R /\
    (at2 F i j <= t <-> at2 field i j <= t * m)%R /\
    (at2 F i j <= at2 F i' j' <-> at2 field i j <= at2 field i' j')%R.
Proof.
  intros Hm Hpos Hr Hr'. exists (arr_scalar Rdiv field m).
  split; [unfold normalize; now rewrite Hm|].
  rewrite !at2_arr_scalar by assumption.
  assert (Hi : (0 < / m)%R) by now apply Rinv_0_lt_compat.
  assert (E : forall v : R, (v / m * m = v)%R) by (intros v; field; lra).
  repeat split; intros H.
  - rewrite <- (E (at2 field i j)). apply Rmult_le_compat_r; lra.
  - apply (Rmult_le_reg_r m); [exact Hpos|]. now rewrite E.
  - rewrite <- (E (at2 field i j)). apply Rmult_le_compat_r; lra.
  - apply (Rmult_le_reg_r m); [exact Hpos|]. now rewrite E.
  - rewrite <- (E (at2 field i j)), <- (E (at2 field i' j')).
    apply Rmult_le_compat_r; lra.
  - unfold Rdiv. apply Rmult_le_compat_r; lra.
Qed.

Lemma threshold_on_raw_field_witness :
  field_max [[2%R; 4%R]] = Ok 4%R /\ (0 < 4)%R /\
  in_range [[2%R; 4%R]] 0 0 /\ in_range [[2%R; 4%R]] 0 1 /\
  exists F, normalize [[2%R; 4%R]] = Ok F /\
            (at2 F 0 0 <= at2 F 0 1)%R.
Proof.
  assert (Hm : field_max [[2%R; 4%R]] = Ok 4%R).
  { unfold field_max. simpl. f_equal. apply Rmax_right. lra. }
  assert (H0 : in_range [[2%R; 4%R]] 0 0) by (split; simpl; lia).
  assert (H1 : in_range [[2%R; 4%R]] 0 1) by (split; simpl; lia).
  split; [exact Hm|]. split; [lra|]. split; [exact H0|]. split; [exact H1|].
  destruct (threshold_on_raw_field [[2%R; 4%R]] 4%R (2 / 10)%R 0 0 0 1
              Hm ltac:(lra) H0 H1) as (F & HF & _ & _ & Hord).
  exists F. split; [exact HF|]. apply Hord. cbv [at2 nth]. lra.
Defined.

(** * Beyond the claims: moving the units (exact reals) *)

Section RealShift.

Local Open Scope R_scope.

Lemma is_min_of_unique (vs : list R) (v w : R) :
  is_min_of vs v -> is_min_of vs w -> v = w.
Proof.
  intros [Hv Hlv] [Hw Hlw]. apply Rle_antisym; auto.
Qed.

Lemma is_max_of_unique (vs : list R) (v w : R) :
  is_max_of vs v -> is_max_of vs w -> v = w.
Proof.
  intros [Hv Hlv] [Hw Hlw]. apply Rle_antisym; auto.
Qed.

Lemma is_min_of_shift (vs : list R) (v c : R) :
  is_min_of vs v -> is_min_of (map (fun x => x + c) vs) (v + c).
Proof.
  intros [Hin Hlb]. split.
  - apply in_map_iff. eauto.
  - intros w Hw. apply in_map_iff in Hw. destruct Hw as (x & <- & Hx).
    specialize (Hlb x Hx). lra.
Qed.

Lemma is_max_of_shift (vs : list R) (v c : R) :
  is_max_of vs v -> is_max_of (map (fun x => x + c) vs) (v + c).
Proof.
  intros [Hin Hub]. split.
  - apply in_map_iff. eauto.
  - intros w Hw. apply in_map_iff in Hw. destruct Hw as (x & <- & Hx).
    specialize (Hub x Hx). lra.
Qed.

Lemma map_fst_shift (a b : R) (units : list (point R)) :
  map fst (shift_units a b units) = map (fun x => x + a) (map fst units).
Proof. unfold shift_units. rewrite !map_map. reflexivity. Qed.

Lemma map_snd_shift (a b : R) (units : list (point R)) :
  map snd (shift_units a b units) = map (fun y => y + b) (map snd units).
Proof. unfold shift_units. rewrite !map_map. reflexivity. Qed.

(** An axis between shifted bounds is the shifted axis. *)
Lemma linspace_shift (s e c : R) (n : nat) :
  linspace (s + c) (e + c) n = map (fun v => v + c) (linspace s e n).
Proof.
  apply (nth_ext _ _ 0 0).
  - now rewrite length_map, !length_linspace.
  - rewrite length_linspace. intros i Hi.
    rewrite (nth_map_lt _ (linspace s e n) i 0)
      by (now rewrite length_linspace).
    destruct (Nat.eq_dec n 1) as [->|Hn].
    + rewrite !linspace_one_R. destruct i; [reflexivity | lia].
    + rewrite !linspace_nth_R by lia.
      replace (e + c - (s + c)) with (e - s) by lra. lra.
Qed.

Lemma meshgrid_map (f h : R -> R) (x y : array1 R) :
  meshgrid (map f x) (map h y)
  = (arr_map f (fst (meshgrid x y)), arr_map h (snd (meshgrid x y))).
Proof.
  unfold meshgrid, arr_map. cbn [fst snd]. rewrite !map_map.
  apply f_equal2; [reflexivity|].
  apply map_ext. intros yi. now rewrite !map_map.
Qed.

Lemma fold_left_map_units (f : R -> point R -> R) (h : point R -> point R)
  (units : list (point R)) (a : R) :
  fold_left f (map h units) a = fold_left (fun acc u => f acc (h u)) units a.
Proof.
  revert a. induction units as [|u units IH]; intros a; simpl; auto.
Qed.

Lemma fold_left_ext_units (f f' : R -> point R -> R) (units : list (point R))
  (a : R) :
  (forall acc u, f acc u = f' acc u) ->
  fold_left f units a = fold_left f' units a.
Proof.
  intros H. revert a. induction units as [|u units IH]; intros a; simpl; auto.
  now rewrite H, IH.
Qed.

Lemma kernel_shift (sigma px py a b : R) (u : point R) :
  kernel sigma (px + a) (py + b) (fst u + a, snd u + b) = kernel sigma px py u.
Proof.
  rewrite !kernel_exponent. cbn [fst snd]. f_equal. f_equal. f_equal. ring.
Qed.

(** The accumulated field of the moved units on the moved grid is the
    accumulated field of the units on the grid. *)
Lemma accumulate_shift (X Y : array2 R) (units : list (point R))
  (sigma a b : R) :
  shape X = shape Y ->
  accumulate (arr_map (fun v => v + a) X) (arr_map (fun v => v + b) Y)
    (shift_units a b units) sigma
  = accumulate X Y units sigma.
Proof.
  intros HXY.
  assert (HS : shape (arr_map (fun v => v + a) X)
               = shape (arr_map (fun v => v + b) Y))
    by now rewrite !shape_arr_map.
  apply array2_ext.
  - now rewrite !shape_accumulate, shape_arr_map.
  - intros i j Hr.
    assert (HX' : in_range (arr_map (fun v => v + a) X) i j).
    { eapply in_range_shape; [|exact Hr]. now apply shape_accumulate. }
    assert (HX : in_range X i j).
    { eapply in_range_shape; [|exact HX']. apply shape_arr_map. }
    assert (HY : in_range Y i j) by now apply (in_range_shape X).
    rewrite !at2_accumulate, !at2_arr_map by assumption.
    unfold shift_units. rewrite fold_left_map_units.
    apply fold_left_ext_units. intros acc u. cbn [fst snd].
    now rewrite kernel_shift.
Qed.

End RealShift.

(** X14.  The field moves with the units.  In exact real arithmetic, moving
    every unit by [(a, b)] moves every grid point by [(a, b)] and leaves the
    normalised field unchanged. *)
Theorem field_translation_invariant (units : list (point R))
  (a b sigma threshold : R) (grid_res : nat) :
  units <> [] -> (0 < grid_res)%nat ->
  exists ri ri',
    field_of_units units sigma threshold grid_res = Ok ri /\
    field_of_units (shift_units a b units) sigma threshold grid_res = Ok ri' /\
    ri_X ri' = arr_map (fun v => (v + a)%R) (ri_X ri) /\
    ri_Y ri' = arr_map (fun v => (v + b)%R) (ri_Y ri) /\
    ri_field ri' = ri_field ri.
Proof.
  intros Hne Hres.
  assert (Hne' : shift_units a b units <> []).
  { destruct units; [congruence | discriminate]. }
  destruct (field_of_units_returns units sigma threshold grid_res Hne Hres)
    as (g & m & Hg & Hm & Hf).
  destruct (field_of_units_returns (shift_units a b units) sigma threshold
              grid_res Hne' Hres) as (g' & m' & Hg' & Hm' & Hf').
  destruct (build_grid_real units margin grid_res Hne)
    as (lo & hi & g0 & Hg0 & Hlox & Hloy & Hhix & Hhiy & Exmin & Eymin & Exmax
        & Eymax & Ex & Ey & EX & EY).
  rewrite Hg in Hg0. injection Hg0 as <-.
  destruct (build_grid_real (shift_units a b units) margin grid_res Hne')
    as (lo' & hi' & g0 & Hg0 & Hlox' & Hloy' & Hhix' & Hhiy' & Exmin' & Eymin'
        & Exmax' & Eymax' & Ex' & Ey' & EX' & EY').
  rewrite Hg' in Hg0. injection Hg0 as <-.
  rewrite map_fst_shift in Hlox', Hhix'. rewrite map_snd_shift in Hloy', Hhiy'.
  pose proof (is_min_of_unique _ _ _ Hlox' (is_min_of_shift _ _ a Hlox)) as E1.
  pose proof (is_min_of_unique _ _ _ Hloy' (is_min_of_shift _ _ b Hloy)) as E2.
  pose proof (is_max_of_unique _ _ _ Hhix' (is_max_of_shift _ _ a Hhix)) as E3.
  pose proof (is_max_of_unique _ _ _ Hhiy' (is_max_of_shift _ _ b Hhiy)) as E4.
  assert (Hx : g_x g' = map (fun v => (v + a)%R) (g_x g)).
  { rewrite Ex', Ex, <- linspace_shift. f_equal; lra. }
  assert (Hy : g_y g' = map (fun v => (v + b)%R) (g_y g)).
  { rewrite Ey', Ey, <- linspace_shift. f_equal; lra. }
  assert (HX : g_X g' = arr_map (fun v => (v + a)%R) (g_X g)).
  { rewrite EX', EX, Hx, Hy, meshgrid_map. reflexivity. }
  assert (HY : g_Y g' = arr_map (fun v => (v + b)%R) (g_Y g)).
  { rewrite EY', EY, Hx, Hy, meshgrid_map. reflexivity. }
  assert (HXY : shape (g_X g) = shape (g_Y g))
    by (rewrite EX, EY; apply shape_meshgrid).
  rewrite HX, HY, accumulate_shift in Hm' by assumption.
  rewrite Hm in Hm'. injection Hm' as <-.
  eexists. eexists. split; [exact Hf|]. split; [exact Hf'|].
  cbn [ri_X ri_Y ri_field]. split; [exact HX|]. split; [exact HY|].
  rewrite HX, HY, accumulate_shift by assumption. reflexivity.
Qed.

Lemma field_translation_invariant_witness :
  [(1%R, 2%R)] <> [] /\ (0 < 3)%nat /\
  exists ri ri',
    field_of_units [(1%R, 2%R)] 15%R (2 / 10)%R 3 = Ok ri /\
    field_of_units (shift_units 100%R (-7)%R [(1%R, 2%R)]) 15%R (2 / 10)%R 3
    = Ok ri' /\
    ri_field ri' = ri_field ri.
Proof.
  split; [discriminate|]. split; [lia|].
  destruct (field_translation_invariant [(1%R, 2%R)] 100%R (-7)%R 15%R
              (2 / 10)%R 3 ltac:(discriminate) ltac:(lia))
    as (ri & ri' & H1 & H2 & _ & _ & H3).
  exists ri, ri'. auto.
Defined.

(** * Beyond the claims: a single unit on a grid with a centre sample *)

Section OddGrid.

Local Open Scope R_scope.

Lemma single_min (v w : R) : is_min_of [v] w -> w = v.
Proof. intros [[E|[]] _]. now symmetry. Qed.

Lemma single_max (v w : R) : is_max_of [v] w -> w = v.
Proof. intros [[E|[]] _]. now symmetry. Qed.

(** The middle sample of an odd axis around [c] is [c]. *)
Lemma centre_sample (c : R) (k : nat) :
  (1 <= k)%nat -> nth k (linspace (c - 20) (c + 20) (2 * k + 1)) 0 = c.
Proof.
  intros Hk. rewrite linspace_nth_R by lia.
  rewrite plus_INR, mult_INR. simpl INR.
  assert (H1 : 1 <= INR k) by (apply (le_INR 1 k) in Hk; simpl in Hk; lra).
  field. lra.
Qed.

Lemma kernel_at_unit (sigma : R) (u : point R) : kernel sigma (fst u) (snd u) u = 1.
Proof.
  rewrite kernel_exponent, <- exp_0. f_equal. unfold Rdiv. ring.
Qed.

End OddGrid.

(** X15.  When [grid_res] is odd and at least 3, a single unit is itself a
    grid point, the middle one.  The kernel is 1 there and at most 1
    elsewhere, so line 41 divides by 1: in exact real arithmetic the
    normalised field is then the unit's Gaussian kernel itself, with its
    maximum 1 at the unit. *)
Theorem single_unit_on_odd_grid (u : point R) (sigma threshold : R) (k : nat) :
  (0 < sigma)%R -> (1 <= k)%nat ->
  exists ri,
    field_of_units [u] sigma threshold (2 * k + 1) = Ok ri /\
    at2 (ri_X ri) k k = fst u /\ at2 (ri_Y ri) k k = snd u /\
    field_max (accumulate (ri_X ri) (ri_Y ri) [u] sigma) = Ok 1%R /\
    at2 (ri_field ri) k k = 1%R /\
    forall i j, (i < 2 * k + 1)%nat -> (j < 2 * k + 1)%nat ->
      at2 (ri_field ri) i j
      = kernel sigma (at2 (ri_X ri) i j) (at2 (ri_Y ri) i j) u.
Proof.
  intros Hs Hk. set (n := (2 * k + 1)%nat).
  destruct (field_of_units_ok [u] sigma threshold n) as
    (g & m & Hg & HX & HXY & Hmax & Hin & Hb & Hf); [discriminate | lia |].
  destruct (build_grid_real [u] margin n) as
    (lo & hi & g0 & Hg0 & Hlox & Hloy & Hhix & Hhiy & Exmin & Eymin & Exmax
     & Eymax & Ex & Ey & EX & EY); [discriminate|].
  rewrite Hg in Hg0. injection Hg0 as <-.
  apply single_min in Hlox, Hloy. apply single_max in Hhix, Hhiy.
  rewrite Hlox in Exmin. rewrite Hloy in Eymin.
  rewrite Hhix in Exmax. rewrite Hhiy in Eymax.
  unfold margin in Exmin, Eymin, Exmax, Eymax.
  simpl s_of_Z in Exmin, Eymin, Exmax, Eymax.
  rewrite Exmin, Exmax in Ex. rewrite Eymin, Eymax in Ey.
  set (A := accumulate (g_X g) (g_Y g) [u] sigma) in *.
  assert (HA : shape A = repeat n n).
  { unfold A. rewrite shape_accumulate; congruence. }
  assert (Hacc : forall i j, (i < n)%nat -> (j < n)%nat ->
             at2 A i j = kernel sigma (at2 (g_X g) i j) (at2 (g_Y g) i j) u).
  { intros i j Hi Hj. unfold A. rewrite at2_accumulate; auto.
    - simpl. lra.
    - apply (in_range_square _ n); auto. }
  assert (Hc : at2 (g_X g) k k = fst u /\ at2 (g_Y g) k k = snd u).
  { rewrite EX, EY.
    destruct (meshgrid_at2 (g_x g) (g_y g) k k) as [E1 E2];
      try (rewrite ?Ex, ?Ey, length_linspace; unfold n; lia).
    rewrite E1, E2, Ex, Ey. split; now apply centre_sample. }
  destruct Hc as [Hcx Hcy].
  assert (Hkk : at2 A k k = 1%R).
  { rewrite Hacc by (unfold n; lia). rewrite Hcx, Hcy. apply kernel_at_unit. }
  assert (Hm : m = 1%R).
  { apply Rle_antisym.
    - apply In_concat_at2 in Hin. destruct Hin as (i & j & Hr & <-).
      apply (in_range_square _ n) in Hr; [|exact HA].
      destruct Hr as [Hi Hj]. rewrite Hacc by assumption.
      now apply kernel_le_1.
    - rewrite <- Hkk. apply Hb, at2_In_concat.
      apply (in_range_square _ n); [exact HA | unfold n; lia]. }
  subst m. rewrite arr_scalar_div_1 in Hf.
  eexists. split; [exact Hf|]. cbn [ri_X ri_Y ri_field]. fold A.
  split; [exact Hcx|]. split; [exact Hcy|]. split; [exact Hmax|].
  split; [exact Hkk|]. exact Hacc.
Qed.

Lemma single_unit_on_odd_grid_witness :
  (0 < 15)%R /\ (1 <= 5)%nat /\
  exists ri,
    field_of_units [(3%R, 4%R)] 15%R (2 / 10)%R (2 * 5 + 1) = Ok ri /\
    at2 (ri_field ri) 5 5 = 1%R.
Proof.
  split; [lra|]. split; [lia|].
  destruct (single_unit_on_odd_grid (3%R, 4%R) 15%R (2 / 10)%R 5
              ltac:(lra) ltac:(lia)) as (ri & H1 & _ & _ & _ & H2 & _).
  exists ri. auto.
Defined.

(** * Beyond the claims: a NaN in the field (binary64) *)

Section NanField.

Variable fexp : float -> float.

Let SCn : Scalar float := float_scalar fexp.
Existing Instance SCn.

Lemma is_nan_Prim2SF (v : float) :
  PrimFloat.is_nan v = true <-> Prim2SF v = S754_nan.
Proof.
  unfold PrimFloat.is_nan. rewrite eqb_spec. unfold SFeqb.
  destruct (Prim2SF v) as [s|s| |s mv e]; simpl.
  - split; discriminate.
  - destruct s; simpl; split; discriminate.
  - split; reflexivity.
  - rewrite Z.compare_refl, Pos.compare_cont_refl.
    destruct s; simpl; split; discriminate.
Qed.

(** Anything divided by a NaN is a NaN. *)
Lemma div_by_nan (v m : float) :
  PrimFloat.is_nan m = true -> PrimFloat.is_nan (v / m) = true.
Proof.
  intros Hm. apply is_nan_Prim2SF in Hm. apply is_nan_Prim2SF.
  rewrite div_spec, Hm. unfold SF64div, SFdiv.
  destruct (Prim2SF v); reflexivity.
Qed.

Lemma fold_maximum_nan_acc (vs : list float) (a : float) :
  PrimFloat.is_nan a = true -> fold_left float_maximum vs a = a.
Proof.
  intros Ha. induction vs as [|v vs IH]; simpl; auto.
  unfold float_maximum at 2. now rewrite Ha.
Qed.

Lemma fold_maximum_nan_in (vs : list float) (a v : float) :
  In v vs -> PrimFloat.is_nan v = true ->
  PrimFloat.is_nan (fold_left float_maximum vs a) = true.
Proof.
  revert a. induction vs as [|w vs IH]; intros a Hin Hv; [contradiction|].
  cbn [fold_left].
  destruct (PrimFloat.is_nan a) eqn:Ha.
  - rewrite fold_maximum_nan_acc; unfold float_maximum; rewrite Ha; auto.
  - destruct Hin as [->|Hin].
    + assert (E : float_maximum a v = v)
        by (unfold float_maximum; now rewrite Ha, Hv).
      rewrite E, fold_maximum_nan_acc; auto.
    + now apply IH.
Qed.

Lemma field_max_nan (field : array2 float) (v : float) :
  In v (concat field) -> PrimFloat.is_nan v = true ->
  exists m, field_max field = Ok m /\ PrimFloat.is_nan m = true.
Proof.
  intros Hin Hv. unfold field_max.
  destruct (concat field) as [|w ws]; [contradiction|].
  eexists. split; [reflexivity|]. cbn [s_maximum SCn float_scalar].
  destruct Hin as [->|Hin].
  - now rewrite fold_maximum_nan_acc.
  - now apply fold_maximum_nan_in with v.
Qed.

End NanField.

(** X16.  In binary64 one NaN spoils the whole field: if any entry of the
    accumulated field is a NaN then [field.max()] is a NaN, and line 41
    returns, without raising, a field of the same shape whose every entry is
    a NaN. *)
Theorem nan_entry_poisons_field (fexp : float -> float) (field : array2 float)
  (v : float) :
  In v (concat field) -> PrimFloat.is_nan v = true ->
  let SCf := float_scalar fexp in
  exists m F,
    field_max field = Ok m /\ PrimFloat.is_nan m = true /\
    normalize field = Ok F /\ shape F = shape field /\
    forall w, In w (concat F) -> PrimFloat.is_nan w = true.
Proof.
  intros Hin Hv SCf. unfold SCf. clear SCf.
  destruct (field_max_nan fexp field v Hin Hv) as (m & Hm & Hnan).
  exists m. eexists. split; [exact Hm|]. split; [exact Hnan|].
  unfold normalize. rewrite Hm. cbn [rbind]. split; [reflexivity|].
  split; [apply shape_arr_scalar|].
  intros w Hw. rewrite concat_arr_scalar in Hw.
  apply in_map_iff in Hw. destruct Hw as (a & <- & _).
  now apply div_by_nan.
Qed.

Lemma nan_entry_poisons_field_witness :
  In nan (concat [[1%float; nan]; [2%float; 3%float]]) /\
  PrimFloat.is_nan nan = true /\
  exists F,
    normalize (SC := float_scalar (fun v => v))
      [[1%float; nan]; [2%float; 3%float]] = Ok F /\
    forall w, In w (concat F) -> PrimFloat.is_nan w = true.
Proof.
  assert (Hin : In nan (concat [[1%float; nan]; [2%float; 3%float]]))
    by (simpl; auto).
  split; [exact Hin|]. split; [reflexivity|].
  destruct (nan_entry_poisons_field (fun v => v)
              [[1%float; nan]; [2%float; 3%float]] nan Hin eq_refl)
    as (m & F & _ & _ & HF & _ & Hall).
  exists F. auto.
Defined.
